(** * The Schelling segregation model of the Week 6 notebook

    Shallow embedding of the code cells of
    [Agent-Based Models Schelling Segregation.ipynb]:
    [initialize_grid], [fraction_neighbors_same], [is_satisfied], [update]
    and [average_neighbor_similarity].

    Modelling conventions.
    - The numpy array [grid] is a list of rows; its cells hold the codes the
      notebook writes (0 empty, 1 type A, 2 type B) as integers.
    - Python exceptions are the [Raise] results of an error monad.
    - Floats are exact rationals; the not-a-number result of [np.mean] on an
      empty list is a constructor of its own.
    - [np.random] is a tape of raw draws with a read position.  Every value
      the library can return is returned for some tape.
    - [np.zeros] and [np.random.randint] raise for the arguments numpy
      rejects; memory is available for every array numpy accepts.
    - The two objects the notebook mutates in place ([grid], [emptycells])
      and the random state form the heap threaded through [update].

    The word counter of the Week 1 notebook ([process_text],
    [count_words] and its main program) is embedded too.  A [str] is a
    list of characters with code points below 256; [str.lower],
    [str.replace], [str.split] and [Counter] follow the Python library on
    these. *)

From Stdlib Require Import ZArith QArith Lia Ascii.
From Stdlib Require String.
From stdpp Require Import base tactics option list list_numbers strings
  sorting.

Close Scope Q_scope.
Open Scope Z_scope.

(** ** Exceptions and the two monads *)

Inductive exn := ValueError | IndexError | ZeroDivisionError.

Inductive res (A : Type) :=
| Ok (a : A)
| Raise (e : exn).
Arguments Ok {A} a.
Arguments Raise {A} e.

Definition res_bind {A B} (m : res A) (k : A → res B) : res B :=
  match m with
  | Ok a => k a
  | Raise e => Raise e
  end.

Declare Scope res_scope.
Delimit Scope res_scope with res.
Notation "x <- m ;; k" := (res_bind m (λ x, k))
  (at level 100, m at next level, right associativity) : res_scope.

(** A computation over a mutable state [S] that may raise; the state
    survives the exception, as in-place mutations do in Python. *)
Definition M (S A : Type) : Type := S → res A * S.

Definition ret {S A} (a : A) : M S A := λ s, (Ok a, s).
Definition throw {S A} (e : exn) : M S A := λ s, (Raise e, s).
Definition bind {S A B} (m : M S A) (k : A → M S B) : M S B :=
  λ s, match m s with
       | (Ok a, s') => k a s'
       | (Raise e, s') => (Raise e, s')
       end.
Definition lift {S A} (r : res A) : M S A := λ s, (r, s).
Definition gets {S A} (f : S → A) : M S A := λ s, (Ok (f s), s).
Definition modify {S} (f : S → S) : M S unit := λ s, (Ok tt, f s).

Declare Scope M_scope.
Delimit Scope M_scope with M.
Notation "x <- m ;; k" := (bind m (λ x, k))
  (at level 100, m at next level, right associativity) : M_scope.
Notation "m ;;; k" := (bind m (λ _, k))
  (at level 100, right associativity) : M_scope.

(** [for a in l: acc = body(acc, a)], in each monad. *)
Fixpoint for_res {A B} (l : list A) (body : B → A → res B) (b : B) : res B :=
  match l with
  | [] => Ok b
  | a :: l' => res_bind (body b a) (for_res l' body)
  end.

Fixpoint for_M {S A B} (l : list A) (body : B → A → M S B) (b : B) : M S B :=
  match l with
  | [] => ret b
  | a :: l' => bind (body b a) (for_M l' body)
  end.

(** [range(n)] *)
Definition range (n : Z) : list Z := seqZ 0 n.

(** ** The numpy array *)

Abbreviation coord := (Z * Z)%type (only parsing).
Abbreviation Grid := (list (list Z)) (only parsing).

Definition shape0 (g : Grid) : Z := Z.of_nat (length g).
Definition shape1 (g : Grid) : Z :=
  match g with
  | [] => 0
  | r :: _ => Z.of_nat (length r)
  end.

(** [np.zeros((n, m))], an array of 8-byte floats.  A negative dimension
    is a [ValueError], and so is a shape whose byte count, the product of 8
    and the dimensions other than 0, is beyond the largest signed 64-bit
    integer (numpy: array is too big). *)
Definition np_zeros (n m : Z) : res Grid :=
  if (n <? 0) || (m <? 0) then Raise ValueError
  else if 2 ^ 63 <=? 8 * Z.max n 1 * Z.max m 1 then Raise ValueError
  else Ok (replicate (Z.to_nat n) (replicate (Z.to_nat m) 0)).

(** numpy's index rule on an axis of length [n]: [-n <= i < 0] counts from
    the end, anything outside [-n <= i < n] is an [IndexError]. *)
Definition norm_index (i n : Z) : res nat :=
  if (0 <=? i) && (i <? n) then Ok (Z.to_nat i)
  else if (- n <=? i) && (i <? 0) then Ok (Z.to_nat (i + n))
  else Raise IndexError.

(** [grid[x, y]] *)
Definition grid_get (g : Grid) (x y : Z) : res Z :=
  (i <- norm_index x (shape0 g);;
   j <- norm_index y (shape1 g);;
   match g !! i ≫= (.!! j) with
   | Some v => Ok v
   | None => Raise IndexError
   end)%res.

(** [grid[x, y] = v] *)
Definition grid_set (g : Grid) (x y v : Z) : res Grid :=
  (i <- norm_index x (shape0 g);;
   j <- norm_index y (shape1 g);;
   Ok (alter (<[j:=v]>) i g))%res.

(** Python's [a % b] on integers. *)
Definition py_mod (a b : Z) : res Z :=
  if b =? 0 then Raise ZeroDivisionError else Ok (a mod b).

(** ** fraction_neighbors_same and is_satisfied *)

Definition directions : list (Z * Z) :=
  [(-1, -1); (-1, 0); (-1, 1); (0, -1); (0, 1); (1, -1); (1, 0); (1, 1)].

(** One turn of the loop over [directions]; the accumulator is
    [(same, total)]. *)
Definition neighbor_step (g : Grid) (x y agent : Z)
    (acc : Z * Z) (d : Z * Z) : res (Z * Z) :=
  (let '(same, total) := acc in
   let '(dx, dy) := d in
   nx <- py_mod (x + dx) (shape0 g);;
   ny <- py_mod (y + dy) (shape1 g);;
   neighbor <- grid_get g nx ny;;
   if 0 <? neighbor then
     Ok (if neighbor =? agent then same + 1 else same, total + 1)
   else Ok (same, total))%res.

(** [None] is Python's [None]; [Some f] is the float [same / total]. *)
Definition fraction_neighbors_same (x y : Z) (g : Grid) : res (option Q) :=
  (agent <- grid_get g x y;;
   if agent =? 0 then Ok None
   else
     counts <- for_res directions (neighbor_step g x y agent) (0, 0);;
     let '(same, total) := counts in
     if total =? 0 then Ok None
     else Ok (Some (inject_Z same / inject_Z total)%Q))%res.

Definition is_satisfied (x y : Z) (g : Grid) (similarity_threshold : Q)
    : res bool :=
  (fraction_same <- fraction_neighbors_same x y g;;
   match fraction_same with
   | None => Ok true
   | Some f => Ok (Qle_bool similarity_threshold f)
   end)%res.

(** ** The random source *)

Record RandomState := { tape : nat → Z; pos : nat }.

Definition next_raw : M RandomState Z :=
  λ r, (Ok (tape r (pos r)), {| tape := tape r; pos := S (pos r) |}).

(** [np.random.rand()]: a float in [[0, 1)] with 53 random bits. *)
Definition rand : M RandomState Q :=
  (v <- next_raw;; ret (Qmake (v mod 2 ^ 53) (2 ^ 53)))%M.

(** [np.random.randint(high)]: an integer in [[0, high)];
    [high <= 0] is a [ValueError] and draws nothing.  The notebook passes
    the length of a Python list, which is below [2 ^ 63]. *)
Definition randint (high : Z) : M RandomState Z :=
  (if high <=? 0 then throw ValueError
   else v <- next_raw;; ret (v mod high))%M.

(** [np.random.randint(high, size=2)]: two integers in [[0, high)] of
    numpy's 64-bit integer type.  [high <= 0] is a [ValueError], and so is
    a [high] with [high - 1] beyond the largest signed 64-bit integer;
    both are raised before anything is drawn. *)
Definition randint2 (high : Z) : M RandomState (Z * Z) :=
  (if high <=? 0 then throw ValueError
   else if 2 ^ 63 <? high then throw ValueError
   else v <- next_raw;; w <- next_raw;; ret (v mod high, w mod high))%M.

Definition Qlt_bool (a b : Q) : bool := negb (Qle_bool b a).

(** ** initialize_grid *)

(** The body of the inner loop; [grid] and [empty_cells] are the locals. *)
Definition init_cell (fraction_empty fraction_A : Q) (i : Z)
    (locals : Grid * list coord) (j : Z) : M RandomState (Grid * list coord) :=
  (let '(grid, empty_cells) := locals in
   u <- rand;;
   if Qlt_bool u fraction_empty then
     grid' <- lift (grid_set grid i j 0);;
     ret (grid', empty_cells ++ [(i, j)])
   else
     u' <- rand;;
     if Qlt_bool u' fraction_A then
       grid' <- lift (grid_set grid i j 1);;
       ret (grid', empty_cells)
     else
       grid' <- lift (grid_set grid i j 2);;
       ret (grid', empty_cells))%M.

Definition initialize_grid (size : Z) (fraction_empty fraction_A : Q)
    : M RandomState (Grid * list coord) :=
  (grid <- lift (np_zeros size size);;
   for_M (range size)
     (λ locals i,
        for_M (range size) (init_cell fraction_empty fraction_A i) locals)
     (grid, []))%M.

(** ** update *)

(** The objects [update] receives by reference and mutates in place, with
    the state of [np.random]. *)
Record Heap := { grid : Grid; emptycells : list coord; rng : RandomState }.

Definition on_rng {A} (m : M RandomState A) : M Heap A :=
  λ h, let '(a, r) := m (rng h) in
       (a, {| grid := grid h; emptycells := emptycells h; rng := r |}).

Definition put_grid (g : Grid) : M Heap unit :=
  modify (λ h, {| grid := g; emptycells := emptycells h; rng := rng h |}).
Definition put_emptycells (l : list coord) : M Heap unit :=
  modify (λ h, {| grid := grid h; emptycells := l; rng := rng h |}).

(** [l[i]] and [l[i] = v] on a Python list. *)
Definition list_get (l : list coord) (i : Z) : res coord :=
  (k <- norm_index i (Z.of_nat (length l));;
   match l !! k with
   | Some c => Ok c
   | None => Raise IndexError
   end)%res.
Definition list_set (l : list coord) (i : Z) (c : coord) : res (list coord) :=
  (k <- norm_index i (Z.of_nat (length l));; Ok (<[k:=c]> l))%res.

(** [grid[x, y] = v] on the heap's grid. *)
Definition store (x y v : Z) : M Heap unit :=
  (g <- gets grid;; g' <- lift (grid_set g x y v);; put_grid g')%M.

(** Lines 122 to 127: the move of the agent at [(x, y)]. *)
Definition relocate (x y : Z) : M Heap unit :=
  (ec <- gets emptycells;;
   randindex <- on_rng (randint (Z.of_nat (length ec)));;
   new <- lift (list_get ec randindex);;
   ec' <- lift (list_set ec randindex (x, y));;
   put_emptycells ec';;;
   g <- gets grid;;
   old <- lift (grid_get g x y);;
   store new.1 new.2 old;;;
   store x y 0)%M.

(** One turn of the loop of [update]; the accumulator is [was_move]. *)
Definition update_body (size : Z) (similarity_threshold : Q)
    (was_move : bool) (_ : Z) : M Heap bool :=
  (xy <- on_rng (randint2 size);;
   g <- gets grid;;
   sat <- lift (is_satisfied xy.1 xy.2 g similarity_threshold);;
   if negb sat then relocate xy.1 xy.2;;; ret true
   else ret was_move)%M.

(** [update(grid, emptycells, size, similarity_threshold, agents_per_step)]
    on the heap holding [grid] and [emptycells]; the returned tuple is the
    heap's two objects and the boolean. *)
Definition update (size : Z) (similarity_threshold : Q) (agents_per_step : Z)
    : M Heap bool :=
  for_M (range agents_per_step) (update_body size similarity_threshold) false.

(** ** average_neighbor_similarity *)

Inductive npfloat := Num (q : Q) | NaN.

Definition Qsum (l : list Q) : Q := foldr Qplus 0%Q l.

(** [np.mean(l)]: the mean of an empty list is not-a-number (numpy warns
    and raises nothing). *)
Definition np_mean (l : list Q) : npfloat :=
  match l with
  | [] => NaN
  | _ => Num (Qsum l / inject_Z (Z.of_nat (length l)))%Q
  end.

Definition collect_cell (g : Grid) (i : Z) (l : list Q) (j : Z)
    : res (list Q) :=
  (f <- fraction_neighbors_same i j g;;
   match f with
   | Some q => Ok (l ++ [q])
   | None => Ok l
   end)%res.

Definition average_neighbor_similarity (g : Grid) : res npfloat :=
  (let n := shape0 g in
   let m := shape1 g in
   l <- for_res (range n) (λ l i, for_res (range m) (collect_cell g i) l) [];;
   Ok (np_mean l))%res.

(** ** Well-formed grids and the vocabulary of the specification *)

(** A numpy array is rectangular. *)
Definition rect (g : Grid) : Prop :=
  Forall (λ r : list Z, Z.of_nat (length r) = shape1 g) g.

(** Every cell holds one of the three codes. *)
Definition valid_code (v : Z) : Prop := v = 0 ∨ v = 1 ∨ v = 2.
Definition valid_codes (g : Grid) : Prop := Forall (Forall valid_code) g.

Definition in_range (g : Grid) (c : coord) : Prop :=
  0 ≤ c.1 < shape0 g ∧ 0 ≤ c.2 < shape1 g.

(** The Moore neighbourhood as the specification words it: all
    combinations of -1, 0, 1 but (0, 0), wrapped modulo the shape. *)
Definition moore_offsets : list (Z * Z) :=
  filter (λ d, d ≠ (0, 0)) (cprod [-1; 0; 1] [-1; 0; 1]).

Definition wrap (g : Grid) (x y : Z) (d : Z * Z) : coord :=
  ((x + d.1) mod shape0 g, (y + d.2) mod shape1 g).

Definition moore_neighbors (g : Grid) (x y : Z) : list coord :=
  wrap g x y <$> moore_offsets.

Definition reads (g : Grid) (c : coord) (v : Z) : Prop :=
  in_range g c ∧ grid_get g c.1 c.2 = Ok v.

Definition count_occupied (vs : list Z) : Z :=
  Z.of_nat (length (filter (λ v, v ≠ 0) vs)).
Definition count_same (agent : Z) (vs : list Z) : Z :=
  Z.of_nat (length (filter (λ v, v ≠ 0 ∧ v = agent) vs)).

#[global] Instance exn_eq_dec : EqDecision exn.
Proof. solve_decision. Defined.
#[global] Instance res_eq_dec {A} `{EqDecision A} : EqDecision (res A).
Proof. solve_decision. Defined.
#[global] Instance valid_code_dec v : Decision (valid_code v).
Proof. unfold valid_code. apply _. Defined.
#[global] Instance rect_dec g : Decision (rect g).
Proof. unfold rect. apply _. Defined.
#[global] Instance valid_codes_dec g : Decision (valid_codes g).
Proof. unfold valid_codes. apply _. Defined.
#[global] Instance in_range_dec g c : Decision (in_range g c).
Proof. unfold in_range. apply _. Defined.

(** The coordinates of the grid in row-major order, those holding a given
    code, and their number. *)
Definition all_coords (g : Grid) : list coord :=
  cprod (range (shape0 g)) (range (shape1 g)).
Definition holds (g : Grid) (v : Z) (c : coord) : Prop :=
  grid_get g c.1 c.2 = Ok v.
#[global] Instance holds_dec g v c : Decision (holds g v c).
Proof. unfold holds. apply _. Defined.
Definition cells_with (g : Grid) (v : Z) : list coord :=
  filter (holds g v) (all_coords g).
Definition count_cells (g : Grid) (v : Z) : nat := length (cells_with g v).

(** The empty-cell index agrees with the grid. *)
Definition consistent (g : Grid) (ec : list coord) : Prop :=
  length ec = count_cells g 0 ∧
  NoDup ec ∧
  ∀ c, c ∈ ec ↔ in_range g c ∧ holds g 0 c.

Record wf_heap (h : Heap) : Prop := {
  wf_rect : rect (grid h);
  wf_codes : valid_codes (grid h);
  wf_nodup : NoDup (emptycells h);
  wf_index : ∀ c, c ∈ emptycells h ↔ in_range (grid h) c ∧ holds (grid h) 0 c
}.

(** The heaps the notebook can be in: the two objects
    [initialize_grid] returns, and the heap after any call of
    [update] on such a heap, whether the call returns or raises. *)
Inductive reachable : Heap → Prop :=
| reachable_init size fraction_empty fraction_A r g ec r' :
    initialize_grid size fraction_empty fraction_A r = (Ok (g, ec), r') →
    reachable {| grid := g; emptycells := ec; rng := r' |}
| reachable_update h size similarity_threshold agents_per_step r h' :
    reachable h →
    update size similarity_threshold agents_per_step h = (r, h') →
    reachable h'.

(** A sequence of calls of [update], one per element of [ticks] (the
    [size] and [agents_per_step] of the call); the result lists the
    returned [was_move] flags. *)
Fixpoint run_updates (similarity_threshold : Q) (ticks : list (Z * Z))
    : M Heap (list bool) :=
  match ticks with
  | [] => ret []
  | t :: ticks' =>
      (was_move <- update t.1 similarity_threshold t.2;;
       flags <- run_updates similarity_threshold ticks';;
       ret (was_move :: flags))%M
  end.

(** The similarities the metric averages, as the specification words it:
    [fraction_neighbors_same] at every coordinate, undefined results left
    out. *)
Definition defined_at (g : Grid) (c : coord) : option Q :=
  match fraction_neighbors_same c.1 c.2 g with
  | Ok (Some q) => Some q
  | _ => None
  end.
Definition defined_values (g : Grid) : list Q :=
  omap (defined_at g) (all_coords g).

(** The [size] passed to [update] samples coordinates of the grid only.
    An axis of a numpy array is shorter than [2 ^ 63], and so is a size
    that fits one. *)
Definition fits (g : list (list Z)) (size : Z) : Prop :=
  0 < size ∧ size ≤ shape0 g ∧ size ≤ shape1 g ∧ size < 2 ^ 63.
#[global] Instance fits_dec g size : Decision (fits g size).
Proof. unfold fits. apply _. Defined.

(** The random state after [n] more draws, and a heap with its random
    state replaced. *)
Definition advance (n : nat) (r : RandomState) : RandomState :=
  {| tape := tape r; pos := (n + pos r)%nat |}.

Definition with_rng (h : Heap) (r : RandomState) : Heap :=
  {| grid := grid h; emptycells := emptycells h; rng := r |}.

(** Concrete random tapes, for the examples. *)
Definition tape_of (l : list Z) : nat → Z := λ i, nth i l 0.
Definition rng_of (l : list Z) : RandomState := {| tape := tape_of l; pos := 0 |}.

(** A run of the notebook on a 3 by 3 grid, for the examples: the tape
    makes [initialize_grid 3 (1/3) (1/2)] lay out [demo_grid], and then
    makes [update] sample the cell (0, 0) and choose the index entry 1. *)
Definition half : Z := 2 ^ 52.
Definition demo_tape : list Z :=
  [half; 0; half; half; 0;
   half; half; half; 0; half; half;
   0; half; 0; half; half;
   0; 0; 1].
Definition demo_grid : list (list Z) := [[1; 2; 0]; [2; 1; 2]; [0; 1; 2]].
Definition demo_heap : Heap :=
  {| grid := demo_grid; emptycells := [(0, 2); (2, 0)];
     rng := advance 16 (rng_of demo_tape) |}.

Definition demo_heap_moved : Heap :=
  {| grid := [[0; 2; 0]; [2; 1; 2]; [1; 1; 2]];
     emptycells := [(0, 2); (0, 0)];
     rng := advance 19 (rng_of demo_tape) |}.

(** A full board of two types: [initialize_grid 2 0 (1/2)] returns it on
    [checker_tape], with an empty index. *)
Definition checker_grid : list (list Z) := [[1; 2]; [2; 1]].
Definition checker_tape : list Z := [0; 0; 0; half; 0; half; 0; 0].
Definition checker_heap (r : RandomState) : Heap :=
  {| grid := checker_grid; emptycells := []; rng := r |}.

(** The loop invariant of [initialize_grid] after the cells [pre]. *)
Definition init_inv (size : Z) (pre : list coord)
    (locals : list (list Z) * list coord) : Prop :=
  let '(g, ec) := locals in
  rect g ∧ valid_codes g ∧ shape0 g = size ∧ shape1 g = size ∧
  NoDup ec ∧
  (∀ c, c ∈ ec ↔ c ∈ pre ∧ holds g 0 c) ∧
  (∀ c, in_range g c → c ∉ pre → holds g 0 c).

(** The array after [grid[c] = v] at an in-range coordinate. *)
Definition upd (g : Grid) (c : coord) (v : Z) : Grid :=
  alter (<[Z.to_nat c.2 := v]>) (Z.to_nat c.1) g.

(** The codes [initialize_grid] can write for given fractions:
    [np.random.rand()] lies in [[0, 1)], so a branch whose test can never
    hold, or always holds, is never, or always, taken. *)
Definition allowed (fraction_empty fraction_A : Q) (v : Z) : Prop :=
  (v = 0 → (0 < fraction_empty)%Q) ∧
  (v ≠ 0 → (fraction_empty < 1)%Q) ∧
  (v = 1 → (0 < fraction_A)%Q) ∧
  (v = 2 → (fraction_A < 1)%Q).

(** The full loop invariant of [initialize_grid]: after the cells [pre],
    with the locals [(g, ec)] and the random state [s], started from the
    random state [r0]. *)
Definition init_run_inv (size : Z) (fraction_empty fraction_A : Q)
    (r0 : RandomState) (pre : list coord)
    (locals : list (list Z) * list coord) (s : RandomState) : Prop :=
  init_inv size pre locals ∧
  locals.2 = filter (holds locals.1 0) pre ∧
  tape s = tape r0 ∧
  (pos s + length locals.2 = pos r0 + 2 * length pre)%nat ∧
  ∀ c, c ∈ pre → ∃ v, holds locals.1 v c ∧ allowed fraction_empty fraction_A v.

(** What no call of [update] changes, on any heap: the shape of the
    grid, the length of the index and the random tape. *)
Definition frame (h h' : Heap) : Prop :=
  shape0 (grid h') = shape0 (grid h) ∧
  shape1 (grid h') = shape1 (grid h) ∧
  length (emptycells h') = length (emptycells h) ∧
  tape (rng h') = tape (rng h).

(** The grid with the two agent types exchanged. *)
Definition swap_code (v : Z) : Z :=
  if v =? 1 then 2 else if v =? 2 then 1 else v.
Definition swap_types (g : list (list Z)) : list (list Z) :=
  (λ r : list Z, swap_code <$> r) <$> g.

(** The driver of the notebook (lines 394 to 397; lines 276 to 280 are the
    same loop with a message printed at the [break]):
    [for _ in range(budget): ... was_move = update(...);
     if not was_move: break]. *)
Fixpoint run_until_stable (budget : nat) (size : Z) (similarity_threshold : Q)
    (agents_per_step : Z) : M Heap unit :=
  match budget with
  | O => ret tt
  | S budget' =>
      (was_move <- update size similarity_threshold agents_per_step;;
       if negb was_move then ret tt
       else run_until_stable budget' size similarity_threshold
              agents_per_step)%M
  end.

(** One point of the experiment of Solution 3 (lines 393 to 398): a fresh
    grid, the driver with a budget of 100 calls, and the metric of the
    grid it leaves. *)
Definition experiment_point (size : Z) (fraction_empty fraction_A : Q)
    (agents_per_step : Z) (threshold : Q) : M RandomState npfloat :=
  λ r,
    match initialize_grid size fraction_empty fraction_A r with
    | (Ok (grid0, empty_cells), r1) =>
        match run_until_stable 100 size threshold agents_per_step
                {| grid := grid0; emptycells := empty_cells; rng := r1 |} with
        | (Ok _, h) => (average_neighbor_similarity (grid h), rng h)
        | (Raise e, h) => (Raise e, rng h)
        end
    | (Raise e, r1) => (Raise e, r1)
    end.

(** The loop over [thresholds] of Solution 3 (lines 392 to 399), which
    collects the similarities. *)
Definition experiment (size : Z) (fraction_empty fraction_A : Q)
    (agents_per_step : Z) (thresholds : list Q)
    : M RandomState (list npfloat) :=
  for_M thresholds
    (λ similarities threshold,
       (similarity <- experiment_point size fraction_empty fraction_A
                        agents_per_step threshold;;
        ret (similarities ++ [similarity]))%M)
    [].

(** ** The word counter of Week 1 *)

Abbreviation str := (list ascii) (only parsing).

Definition code (c : ascii) : nat := nat_of_ascii c.

(** [str.lower] on one character: the letters A to Z and the upper-case
    letters of Latin-1 (U+00C0 to U+00DE but the sign U+00D7) move up
    by 32. *)
Definition lower_char (c : ascii) : ascii :=
  let n := code c in
  if ((65 <=? n) && (n <=? 90)
      || (192 <=? n) && (n <=? 222) && negb (n =? 215))%nat
  then ascii_of_nat (n + 32) else c.
Definition lower (text : str) : str := lower_char <$> text.

(** The characters [str.split] takes as separators: tab to carriage
    return, U+001C to space, U+0085 and U+00A0. *)
Definition isspace (c : ascii) : bool :=
  let n := code c in
  ((9 <=? n) && (n <=? 13) || (28 <=? n) && (n <=? 32)
   || (n =? 133) || (n =? 160))%nat.

(** [string.punctuation], in its order. *)
Definition punctuation : str :=
  ascii_of_nat <$> (seq 33 15 ++ seq 58 7 ++ seq 91 6 ++ seq 123 4).

(** [text.replace(char, empty)] with the empty string as replacement. *)
Definition replace_char (char : ascii) (text : str) : str :=
  filter (λ c, c ≠ char) text.

(** [text.split()]: the maximal runs of characters that are not
    separators; [cur] is the run being read. *)
Fixpoint split_from (cur : str) (text : str) : list str :=
  match text with
  | [] => match cur with [] => [] | _ => [cur] end
  | c :: rest =>
      if isspace c then
        match cur with
        | [] => split_from [] rest
        | _ => cur :: split_from [] rest
        end
      else split_from (cur ++ [c]) rest
  end.
Definition split (text : str) : list str := split_from [] text.

Definition process_text (text : str) : list str :=
  let text := lower text in
  let text := foldl (λ text char, replace_char char text) text punctuation in
  let words := split text in
  words.

(** A [Counter] is its items in insertion order; [c[word]] is 0 for a
    missing key, and [c[word] += 1] adds the key at the end when it is
    missing. *)
Fixpoint counter_get (c : list (str * Z)) (word : str) : Z :=
  match c with
  | [] => 0
  | (k, v) :: c' => if decide (k = word) then v else counter_get c' word
  end.

Fixpoint counter_incr (c : list (str * Z)) (word : str) : list (str * Z) :=
  match c with
  | [] => [(word, 0 + 1)]
  | (k, v) :: c' =>
      if decide (k = word) then (k, v + 1) :: c'
      else (k, v) :: counter_incr c' word
  end.

(** [count_words] with the words it filters out as a parameter: the list
    of the first cell, the set [stop_words] of the second. *)
Definition count_words_with (stop : list str) (words : list str)
    : list (str * Z) :=
  foldl (λ word_counts word,
           if decide (word ∈ stop) then word_counts
           else counter_incr word_counts word)
    [] words.

Definition stoplist : list str :=
  String.list_ascii_of_string <$> ["is"; "and"; "in"; "us"].
Definition count_words (words : list str) : list (str * Z) :=
  count_words_with stoplist words.

(** [Counter.most_common(n)]: the items sorted by decreasing count, items
    of equal count in insertion order, cut after [n]. *)
Fixpoint insert_desc (x : str * Z) (l : list (str * Z)) : list (str * Z) :=
  match l with
  | [] => [x]
  | y :: l' => if y.2 <=? x.2 then x :: y :: l' else y :: insert_desc x l'
  end.
Definition sorted_desc (l : list (str * Z)) : list (str * Z) :=
  foldr insert_desc [] l.
Definition most_common (n : nat) (c : list (str * Z)) : list (str * Z) :=
  take n (sorted_desc c).

(** The main program: the five most common words of a text. *)
Definition top_words (text : str) : list (str * Z) :=
  most_common 5 (count_words (process_text text)).

(** [sum(word_counts.values())] and the number of times [w] is in
    [words]. *)
Definition counter_total (c : list (str * Z)) : Z :=
  foldr (λ p acc, p.2 + acc) 0 c.
Definition occurrences (w : str) (words : list str) : Z :=
  Z.of_nat (length (filter (λ x, x = w) words)).

(** Items in the order of [most_common]: no count increases. *)
Definition by_count (p q : str * Z) : Prop := q.2 ≤ p.2.

(** [" ".join(words)] *)
Fixpoint join_space (words : list str) : str :=
  match words with
  | [] => []
  | [w] => w
  | w :: ws => w ++ " "%char :: join_space ws
  end.

Definition clean_char (c : ascii) : Prop :=
  lower_char c = c ∧ (c ∉ punctuation) ∧ isspace c = false.
Definition clean_word (w : str) : Prop := w ≠ [] ∧ Forall clean_char w.

(** The text of the first cell. *)
Definition sample_text : str := String.list_ascii_of_string
"Computational Social Science is fun! Data science and social science go hand in hand. 
Analyzing data helps us understand the social world in the digital age.".

(** ** Array lemmas *)

Lemma norm_index_in_range i n : 0 ≤ i < n → norm_index i n = Ok (Z.to_nat i).
Proof.
  intros H. unfold norm_index.
  destruct (Z.leb_spec 0 i), (Z.ltb_spec i n); simpl; (reflexivity || lia).
Qed.

Lemma rect_row g i r : rect g → g !! i = Some r → Z.of_nat (length r) = shape1 g.
Proof. intros Hr Hi. exact (proj1 (Forall_lookup _ _) Hr i r Hi). Qed.

Lemma lookup_in_range g c :
  rect g → in_range g c →
  ∃ r v, g !! Z.to_nat c.1 = Some r ∧ r !! Z.to_nat c.2 = Some v.
Proof.
  intros Hr [H1 H2]. unfold shape0 in H1.
  destruct (lookup_lt_is_Some_2 g (Z.to_nat c.1)) as [r Hrow]; [lia|].
  pose proof (rect_row _ _ _ Hr Hrow) as Hlen.
  destruct (lookup_lt_is_Some_2 r (Z.to_nat c.2)) as [v Hv]; [lia|].
  eauto.
Qed.

Lemma grid_get_lookup g c r v :
  in_range g c → g !! Z.to_nat c.1 = Some r → r !! Z.to_nat c.2 = Some v →
  grid_get g c.1 c.2 = Ok v.
Proof.
  intros [H1 H2] Hrow Hv. unfold grid_get.
  rewrite !norm_index_in_range by done. simpl. rewrite Hrow. simpl. by rewrite Hv.
Qed.

Lemma grid_get_in_range g c :
  rect g → in_range g c → ∃ v, grid_get g c.1 c.2 = Ok v.
Proof.
  intros Hr Hc. destruct (lookup_in_range g c Hr Hc) as (r & v & Hrow & Hv).
  exists v. by eapply grid_get_lookup.
Qed.

Lemma grid_get_valid g c v :
  valid_codes g → in_range g c → grid_get g c.1 c.2 = Ok v → valid_code v.
Proof.
  intros Hv [H1 H2]. unfold grid_get.
  rewrite !norm_index_in_range by done. simpl.
  destruct (g !! Z.to_nat c.1) as [r|] eqn:Hrow; simpl; [|done].
  destruct (r !! Z.to_nat c.2) as [w|] eqn:Hw; [|done].
  intros [= <-].
  pose proof (proj1 (Forall_lookup _ _) Hv _ _ Hrow) as Hrv.
  exact (proj1 (Forall_lookup _ _) Hrv _ _ Hw).
Qed.

Lemma wrap_in_range g x y d :
  0 < shape0 g → 0 < shape1 g → in_range g (wrap g x y d).
Proof.
  intros H0 H1. unfold in_range, wrap. simpl.
  split; apply Z.mod_pos_bound; lia.
Qed.

Lemma moore_offsets_directions : moore_offsets = directions.
Proof. reflexivity. Qed.

(** ** The loop of fraction_neighbors_same *)

Lemma count_occupied_cons v vs :
  count_occupied (v :: vs) = (if decide (v ≠ 0) then 1 else 0) + count_occupied vs.
Proof.
  unfold count_occupied. rewrite filter_cons.
  destruct (decide (v ≠ 0)); simpl; lia.
Qed.

Lemma count_same_cons agent v vs :
  count_same agent (v :: vs) =
  (if decide (v ≠ 0 ∧ v = agent) then 1 else 0) + count_same agent vs.
Proof.
  unfold count_same. rewrite filter_cons.
  destruct (decide (v ≠ 0 ∧ v = agent)); simpl; lia.
Qed.

Lemma count_bounds agent vs :
  0 ≤ count_same agent vs ≤ count_occupied vs ∧
  count_occupied vs ≤ Z.of_nat (length vs).
Proof.
  induction vs as [|v vs IH].
  - unfold count_same, count_occupied. simpl. lia.
  - rewrite count_same_cons, count_occupied_cons. simpl length.
    destruct (decide (v ≠ 0 ∧ v = agent)) as [[? ?]|], (decide (v ≠ 0)); lia.
Qed.

Lemma neighbor_step_reads g x y agent same total d v :
  0 < shape0 g → 0 < shape1 g → 0 ≤ v →
  grid_get g (wrap g x y d).1 (wrap g x y d).2 = Ok v →
  neighbor_step g x y agent (same, total) d =
  Ok (same + (if decide (v ≠ 0 ∧ v = agent) then 1 else 0),
      total + (if decide (v ≠ 0) then 1 else 0)).
Proof.
  intros H0 H1 Hv Hget. unfold neighbor_step. destruct d as [dx dy].
  unfold py_mod.
  destruct (Z.eqb_spec (shape0 g) 0); [lia|].
  destruct (Z.eqb_spec (shape1 g) 0); [lia|].
  simpl. unfold wrap in Hget. simpl in Hget. rewrite Hget. simpl.
  destruct (Z.ltb_spec 0 v), (Z.eqb_spec v agent);
    repeat case_decide; f_equal; f_equal; lia.
Qed.

Lemma neighbor_loop g x y agent ds vs same total :
  0 < shape0 g → 0 < shape1 g →
  Forall2 (λ d v, reads g (wrap g x y d) v ∧ 0 ≤ v) ds vs →
  for_res ds (neighbor_step g x y agent) (same, total) =
  Ok (same + count_same agent vs, total + count_occupied vs).
Proof.
  intros H0 H1 HF. revert same total.
  induction HF as [|d v ds vs [[_ Hget] Hv] _ IH]; intros same total.
  - unfold count_same, count_occupied. simpl. do 2 f_equal; lia.
  - cbn [for_res]. rewrite (neighbor_step_reads _ _ _ _ _ _ _ v) by done.
    cbn [res_bind]. rewrite IH, count_same_cons, count_occupied_cons. do 2 f_equal; lia.
Qed.

Lemma valid_code_nonneg v : valid_code v → 0 ≤ v.
Proof. unfold valid_code. lia. Qed.

(** The codes read at the eight wrapped neighbours. *)
Lemma neighbors_read g x y :
  rect g → valid_codes g → 0 < shape0 g → 0 < shape1 g →
  ∀ ds, ∃ vs, Forall2 (λ d v, reads g (wrap g x y d) v ∧ 0 ≤ v) ds vs.
Proof.
  intros Hr Hv H0 H1. induction ds as [|d ds [vs IH]].
  - exists []. constructor.
  - pose proof (wrap_in_range g x y d H0 H1) as Hin.
    destruct (grid_get_in_range g _ Hr Hin) as [v Hget].
    exists (v :: vs). constructor; [|done].
    split; [by split|].
    eapply valid_code_nonneg, grid_get_valid; eauto.
Qed.

Lemma fraction_neighbors_same_counts g x y agent vs :
  0 < shape0 g → 0 < shape1 g →
  grid_get g x y = Ok agent → agent ≠ 0 →
  Forall2 (λ d v, reads g (wrap g x y d) v ∧ 0 ≤ v) directions vs →
  fraction_neighbors_same x y g =
  Ok (if decide (count_occupied vs = 0) then None
      else Some (inject_Z (count_same agent vs) / inject_Z (count_occupied vs))%Q).
Proof.
  intros H0 H1 Hget Hne HF. unfold fraction_neighbors_same.
  rewrite Hget. cbn [res_bind]. destruct (Z.eqb_spec agent 0); [done|].
  rewrite (neighbor_loop _ _ _ _ _ vs) by done. cbn [res_bind]. rewrite !Z.add_0_l.
  destruct (Z.eqb_spec (count_occupied vs) 0); case_decide; done.
Qed.

Lemma Qfraction_bounds (a b : Z) :
  0 ≤ a ≤ b → 0 < b → (0 <= inject_Z a / inject_Z b ∧ inject_Z a / inject_Z b <= 1)%Q.
Proof.
  intros Hab Hb.
  assert (Hb' : (0 < inject_Z b)%Q) by (unfold Qlt; simpl; lia).
  split.
  - apply Qle_shift_div_l; [done|]. rewrite Qmult_0_l.
    unfold Qle; simpl; lia.
  - apply Qle_shift_div_r; [done|]. rewrite Qmult_1_l.
    unfold Qle; simpl; lia.
Qed.

Lemma reads_weaken g x y ds vs :
  Forall2 (λ d v, reads g (wrap g x y d) v ∧ 0 ≤ v) ds vs →
  Forall2 (reads g) (wrap g x y <$> ds) vs.
Proof.
  intros HF. apply Forall2_fmap_l.
  eapply Forall2_impl; [exact HF|]. by intros d v [? _].
Qed.

Lemma in_range_pos g c : in_range g c → 0 < shape0 g ∧ 0 < shape1 g.
Proof. unfold in_range. lia. Qed.

(** What [fraction_neighbors_same] returns at an in-range cell of a
    well-formed grid, in the vocabulary of the specification. *)
Lemma fraction_neighbors_same_total g x y :
  rect g → valid_codes g → in_range g (x, y) →
  ∃ agent vs,
    grid_get g x y = Ok agent ∧ valid_code agent ∧
    Forall2 (reads g) (moore_neighbors g x y) vs ∧
    fraction_neighbors_same x y g =
    Ok (if decide (agent = 0) then None
        else if decide (count_occupied vs = 0) then None
        else Some (inject_Z (count_same agent vs) / inject_Z (count_occupied vs))%Q).
Proof.
  intros Hr Hv Hin. destruct (in_range_pos _ _ Hin) as [H0 H1].
  destruct (grid_get_in_range g _ Hr Hin) as [agent Hget]. simpl in Hget.
  destruct (neighbors_read g x y Hr Hv H0 H1 directions) as [vs HF].
  exists agent, vs. split; [done|].
  split; [by eapply (grid_get_valid g (x, y))|].
  split; [unfold moore_neighbors; rewrite moore_offsets_directions;
          by eapply reads_weaken|].
  case_decide as Hz.
  - unfold fraction_neighbors_same. rewrite Hget. subst agent. done.
  - by apply fraction_neighbors_same_counts.
Qed.

Lemma count_occupied_zero vs :
  count_occupied vs = 0 ↔ Forall (λ v, v = 0) vs.
Proof.
  induction vs as [|v vs IH].
  - split; [constructor|done].
  - rewrite count_occupied_cons, Forall_cons.
    pose proof (count_bounds 0 vs). case_decide; [lia|]. 
    rewrite <- IH. split; [intros; split; lia|intros [_ ?]; lia].
Qed.

(** ** Assignments to the array *)

Lemma grid_set_in_range g c v :
  in_range g c → grid_set g c.1 c.2 v = Ok (upd g c v).
Proof.
  intros [H1 H2]. unfold grid_set. by rewrite !norm_index_in_range.
Qed.

Lemma shape0_upd g c v : shape0 (upd g c v) = shape0 g.
Proof. unfold shape0, upd. by rewrite length_alter. Qed.

Lemma shape1_upd g c v : shape1 (upd g c v) = shape1 g.
Proof.
  unfold upd. destruct g as [|r g]; [done|].
  destruct (Z.to_nat c.1); simpl; [|done]. by rewrite length_insert.
Qed.

Lemma in_range_upd g c v c' : in_range (upd g c v) c' ↔ in_range g c'.
Proof. unfold in_range. by rewrite shape0_upd, shape1_upd. Qed.

Lemma rect_upd g c v : rect g → rect (upd g c v).
Proof.
  unfold rect. rewrite shape1_upd. intros Hr. unfold upd.
  apply Forall_alter; [done|]. intros r _ Hlen. by rewrite length_insert.
Qed.

Lemma valid_codes_upd g c v :
  valid_codes g → valid_code v → valid_codes (upd g c v).
Proof.
  intros Hg Hv. unfold valid_codes, upd.
  apply Forall_alter; [done|]. intros r _ Hrow. by apply Forall_insert.
Qed.

Lemma in_range_upd_2 g c v c' : in_range g c' → in_range (upd g c v) c'.
Proof. apply in_range_upd. Qed.

Create HintDb grid discriminated.
#[local] Hint Resolve rect_upd valid_codes_upd in_range_upd_2 : grid.

Lemma grid_get_unfold g c :
  in_range g c →
  grid_get g c.1 c.2 =
  match g !! Z.to_nat c.1 ≫= (.!! Z.to_nat c.2) with
  | Some v => Ok v
  | None => Raise IndexError
  end.
Proof. intros [H1 H2]. unfold grid_get. by rewrite !norm_index_in_range. Qed.

Lemma grid_get_upd_eq g c v :
  rect g → in_range g c → grid_get (upd g c v) c.1 c.2 = Ok v.
Proof.
  intros Hr Hc. rewrite grid_get_unfold by auto with grid.
  destruct (lookup_in_range g c Hr Hc) as (r & w & Hrow & Hw).
  unfold upd. rewrite list_lookup_alter_eq, Hrow. simpl.
  rewrite list_lookup_insert_eq; [done|]. by eapply lookup_lt_Some.
Qed.

Lemma grid_get_upd_ne g c v c' :
  in_range g c → in_range g c' → c ≠ c' →
  grid_get (upd g c v) c'.1 c'.2 = grid_get g c'.1 c'.2.
Proof.
  intros Hc Hc' Hne.
  rewrite !grid_get_unfold by auto with grid.
  unfold upd. destruct (decide (Z.to_nat c.1 = Z.to_nat c'.1)) as [He|He].
  - rewrite <- He, list_lookup_alter_eq.
    destruct (g !! Z.to_nat c.1) as [r|]; simpl; [|done].
    rewrite list_lookup_insert_ne; [done|].
    intros He2. apply Hne. destruct Hc, Hc', c, c'. simpl in *. f_equal; lia.
  - by rewrite list_lookup_alter_ne.
Qed.

Lemma holds_upd g c v c' w :
  rect g → in_range g c → in_range g c' →
  holds (upd g c v) w c' ↔ if decide (c' = c) then v = w else holds g w c'.
Proof.
  intros Hr Hc Hc'. unfold holds. case_decide as He.
  - subst c'. rewrite grid_get_upd_eq by done. split; congruence.
  - by rewrite grid_get_upd_ne.
Qed.

(** ** Counting cells *)

Lemma elem_of_all_coords g c : c ∈ all_coords g ↔ in_range g c.
Proof.
  unfold all_coords, in_range, range.
  rewrite list_elem_of_cprod, !elem_of_seqZ. lia.
Qed.

Lemma NoDup_all_coords g : NoDup (all_coords g).
Proof.
  unfold all_coords, cprod, list_cprod. apply NoDup_bind.
  - intros x1 x2 [a b] _ _ H1 H2.
    apply list_elem_of_fmap in H1 as (? & [= -> ->] & _).
    by apply list_elem_of_fmap in H2 as (? & [= -> _] & _).
  - intros x _. apply NoDup_fmap_2; [|apply NoDup_seqZ]. by intros ?? [= ->].
  - apply NoDup_seqZ.
Qed.

Lemma all_coords_upd g c v : all_coords (upd g c v) = all_coords g.
Proof. unfold all_coords. by rewrite shape0_upd, shape1_upd. Qed.

Lemma elem_of_cells_with g v c :
  c ∈ cells_with g v ↔ in_range g c ∧ holds g v c.
Proof.
  unfold cells_with. rewrite list_elem_of_filter, elem_of_all_coords. tauto.
Qed.

Lemma NoDup_cells_with g v : NoDup (cells_with g v).
Proof. apply NoDup_filter, NoDup_all_coords. Qed.

(** Two predicates that differ at one element of a duplicate-free list. *)
Lemma filter_length_change {A} `{!EqDecision A} (P Q : A → Prop)
    `{!∀ x, Decision (P x)} `{!∀ x, Decision (Q x)} (l : list A) (c : A) :
  NoDup l → c ∈ l → (∀ x, x ∈ l → x ≠ c → (P x ↔ Q x)) →
  (length (filter Q l) + (if decide (P c) then 1 else 0) =
   length (filter P l) + (if decide (Q c) then 1 else 0))%nat.
Proof.
  intros Hnd Hc Hagree.
  assert (Hsame : ∀ k : list A, c ∉ k → (∀ x, x ∈ k → x ∈ l) →
            filter Q k = filter P k).
  { induction k as [|a k IH]; intros Hck Hsub; [done|].
    rewrite !filter_cons. rewrite IH.
    - assert (P a ↔ Q a) as Ha.
      { apply Hagree; [apply Hsub; left|]. intros ->. apply Hck. left. }
      repeat case_decide; tauto || done.
    - intros ?. apply Hck. by right.
    - intros x ?. apply Hsub. by right. }
  assert (Hgen : ∀ k, NoDup k → (∀ x, x ∈ k → x ∈ l) → c ∈ k →
    (length (filter Q k) + (if decide (P c) then 1 else 0) =
     length (filter P k) + (if decide (Q c) then 1 else 0))%nat).
  { induction k as [|a k IH]; intros Hk Hsub Hin; [by inversion Hin|].
    apply NoDup_cons in Hk as [Hak Hk]. rewrite !filter_cons.
    destruct (decide (a = c)) as [->|Hne].
    - rewrite (Hsame k) by (done || intros x ?; apply Hsub; by right).
      repeat case_decide; simpl; lia.
    - assert (c ∈ k) as Hck by (inversion Hin; congruence).
      assert (P a ↔ Q a) as Ha by (apply Hagree; [apply Hsub; left|done]).
      specialize (IH Hk (λ x Hx, Hsub x (list_elem_of_further _ _ _ Hx)) Hck).
      repeat case_decide; simpl; tauto || lia. }
  by apply Hgen.
Qed.

Lemma count_cells_upd g c v old w :
  rect g → in_range g c → holds g old c →
  (count_cells (upd g c v) w + (if decide (old = w) then 1 else 0) =
   count_cells g w + (if decide (v = w) then 1 else 0))%nat.
Proof.
  intros Hr Hc Hold. unfold count_cells, cells_with. rewrite all_coords_upd.
  pose proof (filter_length_change (holds g w) (holds (upd g c v) w)
                (all_coords g) c (NoDup_all_coords g)) as H.
  rewrite elem_of_all_coords in H. specialize (H Hc).
  assert (holds g w c ↔ old = w) as H1.
  { unfold holds in *. rewrite Hold. split; congruence. }
  assert (holds (upd g c v) w c ↔ v = w) as H2.
  { rewrite holds_upd by done. by rewrite decide_True. }
  rewrite <- (decide_ext _ _ _ _ H1), <- (decide_ext _ _ _ _ H2). apply H.
  intros x Hx Hne. apply elem_of_all_coords in Hx.
  rewrite holds_upd by done. by rewrite decide_False.
Qed.

(** ** Replacing one entry of the index *)

Lemma insert_split {A} (l : list A) (k : nat) (a b : A) :
  l !! k = Some a →
  l = take k l ++ a :: drop (S k) l ∧
  <[k:=b]> l = take k l ++ b :: drop (S k) l.
Proof.
  intros Hk. split.
  - by rewrite take_drop_middle.
  - apply insert_take_drop. by eapply lookup_lt_Some.
Qed.

Lemma NoDup_replace {A} (l : list A) (k : nat) (a b : A) :
  NoDup l → l !! k = Some a → b ∉ l → NoDup (<[k:=b]> l).
Proof.
  intros Hnd Hk Hb. destruct (insert_split l k a b Hk) as [Hl ->].
  rewrite Hl in Hnd, Hb. revert Hnd Hb.
  rewrite !NoDup_app, !NoDup_cons, !not_elem_of_app, !not_elem_of_cons.
  intros (H1 & H2 & H3 & H4) (H5 & H6 & H7). split_and!; try done.
  intros c Hc [->|Hd]%elem_of_cons; [done|].
  apply (H2 c Hc). by right.
Qed.

Lemma elem_of_replace {A} (l : list A) (k : nat) (a b c : A) :
  NoDup l → l !! k = Some a →
  c ∈ <[k:=b]> l ↔ c = b ∨ (c ∈ l ∧ c ≠ a).
Proof.
  intros Hnd Hk. destruct (insert_split l k a b Hk) as [Hl ->].
  rewrite Hl in Hnd. rewrite Hl at 3. revert Hnd.
  rewrite NoDup_app, NoDup_cons, !elem_of_app, !elem_of_cons.
  intros (H1 & H2 & H3 & H4). split.
  - intros [Hc|[->|Hc]]; [right|by left|right].
    + split; [by left|]. intros ->. apply (H2 a Hc). by left.
    + split; [by right; right|]. by intros ->.
  - intros [->|[[Hc|[->|Hc]] Hne]]; auto. done.
Qed.

(** ** relocate *)

Lemma randint_draw n r :
  0 < n →
  randint n r =
  (Ok (tape r (pos r) mod n), {| tape := tape r; pos := S (pos r) |}) ∧
  0 ≤ tape r (pos r) mod n < n.
Proof.
  intros Hn. unfold randint. destruct (Z.leb_spec n 0); [lia|].
  split; [done|]. by apply Z.mod_pos_bound.
Qed.

Lemma relocate_empty_index x y g r :
  relocate x y {| grid := g; emptycells := []; rng := r |} =
  (Raise ValueError, {| grid := g; emptycells := []; rng := r |}).
Proof. reflexivity. Qed.

(** The move, on a well-formed heap with a free cell, from an occupied
    in-range cell. *)
Lemma relocate_moves g ec r x y agent :
  wf_heap {| grid := g; emptycells := ec; rng := r |} →
  in_range g (x, y) → holds g agent (x, y) → agent ≠ 0 → ec ≠ [] →
  ∃ k new,
    Z.of_nat k = tape r (pos r) mod Z.of_nat (length ec) ∧
    ec !! k = Some new ∧ in_range g new ∧ holds g 0 new ∧ new ≠ (x, y) ∧
    relocate x y {| grid := g; emptycells := ec; rng := r |} =
    (Ok tt, {| grid := upd (upd g new agent) (x, y) 0;
               emptycells := <[k:=(x, y)]> ec;
               rng := {| tape := tape r; pos := S (pos r) |} |}).
Proof.
  intros [Hr Hv Hnd Hidx] Hin Hag Hne Hec. simpl in *.
  assert (0 < Z.of_nat (length ec)) as Hlen by (destruct ec; simpl; [done|lia]).
  destruct (randint_draw _ r Hlen) as [Hdraw Hbound].
  set (i := tape r (pos r) mod Z.of_nat (length ec)) in *.
  destruct (lookup_lt_is_Some_2 ec (Z.to_nat i)) as [new Hnew]; [lia|].
  assert (new ∈ ec) as Hmem by by eapply list_elem_of_lookup_2.
  apply Hidx in Hmem as [Hnin Hn0].
  assert (new ≠ (x, y)) as Hdiff.
  { intros ->. unfold holds in *. congruence. }
  exists (Z.to_nat i), new. split; [lia|]. do 4 (split; [done|]).
  unfold relocate, bind, gets, on_rng, lift, put_emptycells, store, put_grid,
    modify. simpl. rewrite Hdraw.
  unfold list_get, list_set. rewrite norm_index_in_range by done. simpl.
  rewrite Hnew. unfold holds in Hag. simpl in Hag. rewrite Hag.
  unfold bind, gets, lift. cbn [grid emptycells rng].
  rewrite (grid_set_in_range g new) by done.
  change (grid_set ?g' x y 0) with (grid_set g' (x, y).1 (x, y).2 0).
  rewrite (grid_set_in_range _ (x, y)) by by apply in_range_upd_2.
  done.
Qed.

Lemma wf_heap_relocated g ec r r' x y agent k new :
  wf_heap {| grid := g; emptycells := ec; rng := r |} →
  in_range g (x, y) → holds g agent (x, y) → agent ≠ 0 →
  ec !! k = Some new → new ≠ (x, y) →
  wf_heap {| grid := upd (upd g new agent) (x, y) 0;
             emptycells := <[k:=(x, y)]> ec; rng := r' |}.
Proof.
  intros [Hr Hv Hnd Hidx] Hin Hag Hne Hnew Hdiff. simpl in *.
  assert (new ∈ ec) as Hmem by by eapply list_elem_of_lookup_2.
  apply Hidx in Hmem as [Hnin Hn0].
  assert (valid_code agent) as Hva by by eapply (grid_get_valid g (x, y)).
  assert ((x, y) ∉ ec) as Hfresh.
  { intros [_ H0]%Hidx. unfold holds in *. congruence. }
  constructor; simpl.
  - auto with grid.
  - apply valid_codes_upd; [auto with grid|by left].
  - by eapply NoDup_replace.
  - intros c. rewrite (elem_of_replace ec k new) by done.
    rewrite !in_range_upd. split.
    + intros [->|[[Hc Hc0]%Hidx Hcn]].
      * split; [done|]. apply holds_upd; [auto with grid..|].
        by rewrite decide_True.
      * split; [done|].
        apply holds_upd; [auto with grid..|].
        case_decide; [done|]. apply holds_upd; [done..|]. by rewrite decide_False.
    + intros [Hc Hh].
      apply holds_upd in Hh; [|auto with grid..].
      case_decide as Hxy; [by left|right].
      apply holds_upd in Hh; [|done..].
      case_decide as Hcn; [done|]. split; [|done]. by apply Hidx.
Qed.

(** The grid after a move from [src] to the free cell [new]. *)
Lemma moved_grid g src new agent :
  rect g → in_range g src → in_range g new →
  holds g agent src → holds g 0 new → new ≠ src →
  let g' := upd (upd g new agent) src 0 in
  holds g' 0 src ∧ holds g' agent new ∧
  (∀ c, in_range g c → c ≠ src → c ≠ new →
        grid_get g' c.1 c.2 = grid_get g c.1 c.2) ∧
  (∀ v, count_cells g' v = count_cells g v).
Proof.
  intros Hr Hs Hn Hag H0 Hne g'.
  assert (rect (upd g new agent)) as Hr1 by auto with grid.
  assert (in_range (upd g new agent) src) as Hs1 by auto with grid.
  assert (in_range (upd g new agent) new) as Hn1 by auto with grid.
  assert (holds (upd g new agent) agent src) as Hag1.
  { apply holds_upd; [done..|]. by rewrite decide_False. }
  split_and!.
  - apply holds_upd; [done..|]. by rewrite decide_True.
  - apply holds_upd; [done..|]. rewrite decide_False by done.
    apply holds_upd; [done..|]. by rewrite decide_True.
  - intros c Hc Hcs Hcn. unfold g'.
    rewrite grid_get_upd_ne by auto with grid.
    by rewrite grid_get_upd_ne.
  - intros v.
    pose proof (count_cells_upd g new agent 0 v Hr Hn H0) as E1.
    pose proof (count_cells_upd _ src 0 agent v Hr1 Hs1 Hag1) as E2.
    fold g' in E2. lia.
Qed.

(** ** One turn of the loop of update *)

Lemma grid_get_Ok_in_range g x y v :
  0 ≤ x → 0 ≤ y → grid_get g x y = Ok v → in_range g (x, y).
Proof.
  intros Hx Hy. unfold grid_get, norm_index, in_range. simpl.
  destruct (Z.leb_spec 0 x), (Z.ltb_spec x (shape0 g)), (Z.ltb_spec x 0);
    rewrite ?andb_false_r; simpl; try done; try lia.
  destruct (Z.leb_spec 0 y), (Z.ltb_spec y (shape1 g)), (Z.ltb_spec y 0);
    rewrite ?andb_false_r; simpl; try done; try lia.
Qed.

Lemma is_satisfied_false g x y thr :
  is_satisfied x y g thr = Ok false →
  ∃ agent f, grid_get g x y = Ok agent ∧ agent ≠ 0 ∧
             fraction_neighbors_same x y g = Ok (Some f) ∧
             Qle_bool thr f = false.
Proof.
  unfold is_satisfied.
  destruct (fraction_neighbors_same x y g) as [[f|]|e] eqn:Hf; simpl; try done.
  intros [= Hle]. revert Hf. unfold fraction_neighbors_same.
  destruct (grid_get g x y) as [agent|] eqn:Hget; [|done]. cbn [res_bind].
  destruct (Z.eqb_spec agent 0); [done|]. intros Hf. by exists agent, f.
Qed.

Lemma randint2_draw n r :
  0 < n ≤ 2 ^ 63 →
  ∃ x y, 0 ≤ x < n ∧ 0 ≤ y < n ∧
         x = tape r (pos r) mod n ∧ y = tape r (S (pos r)) mod n ∧
         randint2 n r = (Ok (x, y), advance 2 r).
Proof.
  intros Hn. eexists _, _.
  split; [apply Z.mod_pos_bound; lia|]. split; [apply Z.mod_pos_bound; lia|].
  do 2 (split; [done|]).
  unfold randint2. destruct (Z.leb_spec n 0); [lia|].
  destruct (Z.ltb_spec (2 ^ 63) n); [lia|]. done.
Qed.

Lemma randint2_rejects n r :
  n ≤ 0 ∨ 2 ^ 63 < n → randint2 n r = (Raise ValueError, r).
Proof.
  intros Hn. unfold randint2. destruct (Z.leb_spec n 0); [done|].
  destruct (Z.ltb_spec (2 ^ 63) n); [done|lia].
Qed.

(** The outcomes of one turn. *)
Lemma update_body_cases size thr was_move i h :
  ((size ≤ 0 ∨ 2 ^ 63 < size) ∧
   update_body size thr was_move i h = (Raise ValueError, h)) ∨
  ∃ x y, (0 < size ≤ 2 ^ 63 ∧ 0 ≤ x < size) ∧ 0 ≤ y < size ∧
    x = tape (rng h) (pos (rng h)) mod size ∧
    y = tape (rng h) (S (pos (rng h))) mod size ∧
    let h1 := with_rng h (advance 2 (rng h)) in
    match is_satisfied x y (grid h) thr with
    | Raise e => update_body size thr was_move i h = (Raise e, h1)
    | Ok true => update_body size thr was_move i h = (Ok was_move, h1)
    | Ok false =>
        update_body size thr was_move i h =
        match relocate x y h1 with
        | (Ok _, h') => (Ok true, h')
        | (Raise e, h') => (Raise e, h')
        end
    end.
Proof.
  destruct h as [g ec r].
  destruct (decide (size ≤ 0 ∨ 2 ^ 63 < size)) as [Hs|Hs].
  - left. split; [done|]. unfold update_body, bind, on_rng. simpl.
    by rewrite randint2_rejects.
  - right. assert (0 < size ≤ 2 ^ 63) as Hs' by lia.
    destruct (randint2_draw size r Hs') as (x & y & Hx & Hy & Ex & Ey & Hd).
    exists x, y. do 4 (split; [done|]).
    unfold update_body, bind, on_rng, gets, lift, with_rng, ret.
    cbn [rng grid emptycells]. rewrite Hd. cbn [fst snd grid].
    by destruct (is_satisfied x y g thr) as [[|]|e].
Qed.

(** Case analysis on a turn: either [size] is rejected, or the cell
    [(x, y)] is sampled and [E] says what the turn does. *)
Ltac turn_cases size thr was_move i h x y Hx Hy E :=
  destruct (update_body_cases size thr was_move i h)
    as [[? E]|(x & y & Hx & Hy & ? & ? & E)]; cbv zeta in E.

Lemma wf_heap_with_rng h r : wf_heap h → wf_heap (with_rng h r).
Proof. by intros [? ? ? ?]. Qed.

(** Every turn on a well-formed heap, whatever the value of [was_move] it
    is entered with: either it relocates nothing (the grid and the index
    are untouched, and it returns its [was_move] or raises), or it
    returns [True] after the relocation of the sampled cell [(x, y)] to
    the entry [new] at position [k] of the index. *)
Lemma update_body_outcome size thr was_move i h out h' :
  wf_heap h → update_body size thr was_move i h = (out, h') →
  (grid h' = grid h ∧ emptycells h' = emptycells h ∧
   (out = Ok was_move ∨ ∃ e, out = Raise e)) ∨
  (out = Ok true ∧
   ∃ x y agent k new,
     x = tape (rng h) (pos (rng h)) mod size ∧
     y = tape (rng h) (S (pos (rng h))) mod size ∧
     is_satisfied x y (grid h) thr = Ok false ∧
     in_range (grid h) (x, y) ∧ holds (grid h) agent (x, y) ∧ agent ≠ 0 ∧
     emptycells h !! k = Some new ∧
     in_range (grid h) new ∧ holds (grid h) 0 new ∧ new ≠ (x, y) ∧
     grid h' = upd (upd (grid h) new agent) (x, y) 0 ∧
     emptycells h' = <[k:=(x, y)]> (emptycells h)).
Proof.
  intros Hwf Hrun.
  turn_cases size thr was_move i h x y Hx Hy E.
  { rewrite E in Hrun. injection Hrun as <- <-. left. eauto. }
  destruct (is_satisfied x y (grid h) thr) as [[|]|e] eqn:Hsat.
  - rewrite E in Hrun. injection Hrun as <- <-. left. eauto.
  - destruct (is_satisfied_false _ _ _ _ Hsat) as (agent & f & Hget & Hne & _).
    assert (in_range (grid h) (x, y)) as Hin
      by (eapply grid_get_Ok_in_range; [lia..|done]).
    destruct h as [g ec r]. simpl in *. unfold with_rng in E. simpl in E.
    destruct (decide (ec = [])) as [->|Hec].
    { rewrite relocate_empty_index in E. rewrite E in Hrun.
      injection Hrun as <- <-. left. eauto. }
    destruct (relocate_moves g ec (advance 2 r) x y agent) as
      (k & new & _ & Hk & Hnin & Hn0 & Hdiff & Hrel);
      [by apply (wf_heap_with_rng _ (advance 2 r)) in Hwf|done..|].
    rewrite Hrel in E. rewrite E in Hrun. injection Hrun as <- <-.
    right. split; [done|]. exists x, y, agent, k, new. by split_and!.
  - rewrite E in Hrun. injection Hrun as <- <-. left. eauto.
Qed.

(** A turn keeps the heap well-formed, whatever its outcome. *)
Lemma update_body_wf size thr was_move i h :
  wf_heap h → wf_heap (update_body size thr was_move i h).2.
Proof.
  intros Hwf.
  turn_cases size thr was_move i h x y Hx Hy E; [by rewrite E|].
  destruct (is_satisfied x y (grid h) thr) as [[|]|e] eqn:Hsat;
    rewrite E; try by apply wf_heap_with_rng.
  destruct (is_satisfied_false _ _ _ _ Hsat) as (agent & f & Hget & Hne & _).
  assert (in_range (grid h) (x, y)) as Hin
    by (eapply grid_get_Ok_in_range; [lia..|done]).
  destruct h as [g ec r]. simpl in *. unfold with_rng. simpl.
  destruct (decide (ec = [])) as [->|Hec].
  { rewrite relocate_empty_index. by apply (wf_heap_with_rng _ (advance 2 r)) in Hwf. }
  destruct (relocate_moves g ec (advance 2 r) x y agent) as
    (k & new & _ & Hk & Hnin & Hn0 & Hdiff & Hrel);
    [by apply (wf_heap_with_rng _ (advance 2 r)) in Hwf|done..|].
  rewrite Hrel. simpl. by eapply wf_heap_relocated.
Qed.

(** ** Loops *)

Lemma for_M_state_inv {S A B} (I : S → Prop) (l : list A)
    (body : B → A → M S B) :
  (∀ b a s, I s → I (body b a s).2) →
  ∀ b s, I s → I (for_M l body b s).2.
Proof.
  intros Hbody. induction l as [|a l IH]; intros b s Hs; [done|].
  cbn [for_M]. unfold bind. specialize (Hbody b a s Hs).
  destruct (body b a s) as [[b'|e] s']; simpl in *; [by apply IH|done].
Qed.

(** A loop whose turns keep a view [f] of the state, and return their
    accumulator unchanged or raise, does the same. *)
Lemma for_M_no_change {S A B X} (f : S → X) (I : S → Prop) (l : list A)
    (body : B → A → M S B) :
  (∀ b a s, I s →
     let out := body b a s in
     f out.2 = f s ∧ I out.2 ∧ (out.1 = Ok b ∨ ∃ e, out.1 = Raise e)) →
  ∀ b s, I s →
    let out := for_M l body b s in
    f out.2 = f s ∧ I out.2 ∧ (out.1 = Ok b ∨ ∃ e, out.1 = Raise e).
Proof.
  intros Hbody. induction l as [|a l IH]; intros b s Hs; cbv zeta.
  - simpl. eauto.
  - cbn [for_M]. unfold bind.
    destruct (Hbody b a s Hs) as (Hf & HI & Hr).
    destruct (body b a s) as [[b'|e] s1]; simpl in *.
    + destruct Hr as [[= ->]|[? [=]]].
      destruct (IH b s1 HI) as (Hf' & HI' & Hr'). by rewrite Hf', Hf.
    + eauto.
Qed.

Lemma update_wf size thr agents_per_step h :
  wf_heap h → wf_heap (update size thr agents_per_step h).2.
Proof.
  intros Hwf. unfold update. apply for_M_state_inv; [|done].
  intros. by apply update_body_wf.
Qed.

Lemma bind_ext {S A B} (m : M S A) (k k' : A → M S B) s :
  (∀ a s', k a s' = k' a s') → bind m k s = bind m k' s.
Proof. intros H. unfold bind. by destruct (m s) as [[a|e] s']. Qed.

Lemma for_M_app {S A B} (l1 l2 : list A) (body : B → A → M S B) b s :
  for_M (l1 ++ l2) body b s = bind (for_M l1 body b) (for_M l2 body) s.
Proof.
  revert b s. induction l1 as [|a l1 IH]; intros b s; [done|].
  cbn [app for_M]. unfold bind.
  destruct (body b a s) as [[b'|e] s']; [|done]. by rewrite IH.
Qed.

Lemma for_M_fmap {S A A' B} (f : A' → A) (l : list A') (body : B → A → M S B) b s :
  for_M (f <$> l) body b s = for_M l (λ b a, body b (f a)) b s.
Proof.
  revert b s. induction l as [|a l IH]; intros b s; [done|].
  cbn [fmap list_fmap for_M]. by apply bind_ext.
Qed.

(** Two nested loops are one loop over the product of their ranges. *)
Lemma for_M_nested {S A1 A2 B} (l1 : list A1) (l2 : list A2)
    (body : A1 → B → A2 → M S B) b s :
  for_M l1 (λ b i, for_M l2 (body i) b) b s =
  for_M (cprod l1 l2) (λ b c, body c.1 b c.2) b s.
Proof.
  revert b s. induction l1 as [|i l1 IH]; intros b s; [done|].
  change (cprod (i :: l1) l2) with (((i,.) <$> l2) ++ cprod l1 l2).
  rewrite for_M_app. cbn [for_M]. unfold bind at 1 2.
  rewrite for_M_fmap. simpl.
  by destruct (for_M l2 _ b s) as [[b'|e] s'].
Qed.

Lemma for_M_prefix_inv {S A B} (I : list A → B → Prop) (l : list A)
    (body : B → A → M S B) :
  (∀ pre a post b s b' s',
     l = pre ++ a :: post → I pre b → body b a s = (Ok b', s') →
     I (pre ++ [a]) b') →
  ∀ b s b' s', I [] b → for_M l body b s = (Ok b', s') → I l b'.
Proof.
  intros Hstep.
  assert (∀ rest pre b s b' s',
            l = pre ++ rest → I pre b →
            for_M rest body b s = (Ok b', s') → I l b') as Hgen.
  { induction rest as [|a rest IH]; intros pre b s b' s' Hl Hpre Hrun.
    - rewrite app_nil_r in Hl. subst pre. by injection Hrun as -> _.
    - cbn [for_M] in Hrun. unfold bind in Hrun.
      destruct (body b a s) as [[b1|e] s1] eqn:Hb; [|done].
      apply (IH (pre ++ [a]) b1 s1 b' s'); [by rewrite <- app_assoc| |done].
      by eapply Hstep. }
  intros b s b' s' H0 Hrun. by eapply (Hgen l []).
Qed.

(** ** initialize_grid *)

Lemma np_zeros_Ok n g :
  np_zeros n n = Ok g →
  0 ≤ n ∧ g = replicate (Z.to_nat n) (replicate (Z.to_nat n) 0).
Proof.
  unfold np_zeros. destruct (Z.ltb_spec n 0); simpl; [done|].
  destruct (2 ^ 63 <=? 8 * Z.max n 1 * Z.max n 1); [done|].
  intros [= <-]. done.
Qed.

(** The sizes [np.zeros((n, n))] rejects. *)
Lemma np_zeros_rejects n :
  n < 0 ∨ 2 ^ 63 ≤ 8 * n * n → np_zeros n n = Raise ValueError.
Proof.
  intros Hn. unfold np_zeros. destruct (Z.ltb_spec n 0); [done|]. simpl.
  destruct (Z.leb_spec (2 ^ 63) (8 * Z.max n 1 * Z.max n 1)); [done|].
  destruct (decide (n = 0)) as [->|]; [simpl in *; lia|].
  rewrite Z.max_l in * by lia. lia.
Qed.

Lemma zeros_shape n :
  0 ≤ n →
  let g := replicate (Z.to_nat n) (replicate (Z.to_nat n) 0) in
  shape0 g = n ∧ shape1 g = n ∧ rect g ∧ valid_codes g ∧
  ∀ c, in_range g c → holds g 0 c.
Proof.
  intros Hn g.
  assert (shape0 g = n) as H0.
  { unfold shape0, g. rewrite length_replicate. lia. }
  assert (shape1 g = n) as H1.
  { unfold shape1, g. destruct (Z.to_nat n) eqn:E; simpl; [lia|].
    rewrite length_replicate. lia. }
  split; [done|]. split; [done|]. split_and!.
  - unfold rect. rewrite H1. unfold g. apply Forall_replicate.
    rewrite length_replicate. lia.
  - unfold valid_codes, g. do 2 apply Forall_replicate. by left.
  - intros c Hc. unfold holds. rewrite grid_get_unfold by done.
    destruct Hc as [Hc1 Hc2]. rewrite H0 in Hc1. rewrite H1 in Hc2.
    unfold g. rewrite lookup_replicate_2 by lia. simpl.
    by rewrite lookup_replicate_2 by lia.
Qed.

Lemma init_cell_result fe fa i j g ec s b' s' :
  in_range g (i, j) →
  init_cell fe fa i (g, ec) j s = (Ok b', s') →
  ∃ v, valid_code v ∧
       b' = (upd g (i, j) v, if decide (v = 0) then ec ++ [(i, j)] else ec).
Proof.
  intros Hin. unfold init_cell, bind, rand, next_raw, ret, lift.
  change (grid_set g i j) with (grid_set g (i, j).1 (i, j).2).
  rewrite !grid_set_in_range by done.
  cbv [bind rand next_raw ret lift].
  repeat (match goal with |- context [if ?b then _ else _] => destruct b end);
    intros [= <- <-].
  - exists 0. split; [by left|done].
  - exists 1. split; [by right; left|done].
  - exists 2. split; [by right; right|done].
Qed.

Lemma init_inv_step size fe fa pre a post locals s locals' s' :
  cprod (range size) (range size) = pre ++ a :: post →
  init_inv size pre locals →
  init_cell fe fa a.1 locals a.2 s = (Ok locals', s') →
  init_inv size (pre ++ [a]) locals'.
Proof.
  destruct locals as [g ec]. intros Hl (Hr & Hv & H0 & H1 & Hnd & Hidx & Hrest).
  assert (NoDup (pre ++ a :: post)) as Hndl.
  { rewrite <- Hl. pose proof (NoDup_all_coords g) as H.
    unfold all_coords in H. by rewrite H0, H1 in H. }
  assert (∀ c, c ∈ pre ++ a :: post → in_range g c) as Hall.
  { intros c Hc. apply elem_of_all_coords. unfold all_coords.
    by rewrite H0, H1, Hl. }
  assert (in_range g a) as Ha.
  { apply Hall. rewrite elem_of_app, elem_of_cons. auto. }
  assert (a ∉ pre) as Hfresh.
  { apply NoDup_app in Hndl as (_ & Hd & _). intros Hin.
    apply (Hd a Hin). by left. }
  destruct a as [i j]. intros Hrun.
  destruct (init_cell_result _ _ _ _ _ _ _ _ _ Ha Hrun) as (v & Hvv & ->).
  assert (∀ c, c ∈ pre → in_range g c ∧ c ≠ (i, j)) as Hpre.
  { intros c Hc. split; [apply Hall; rewrite elem_of_app; auto|]. by intros ->. }
  assert (∀ c, in_range g c →
            holds (upd g (i, j) v) 0 c ↔
            if decide (c = (i, j)) then v = 0 else holds g 0 c) as Hh
    by (intros; by apply holds_upd).
  unfold init_inv. rewrite shape0_upd, shape1_upd.
  split; [auto with grid|]. split; [auto with grid|].
  do 2 (split; [done|]). split_and!.
  - case_decide; [|done]. apply NoDup_app. split; [done|].
    split; [|apply NoDup_singleton].
    intros c [Hc _]%Hidx ->%list_elem_of_singleton. done.
  - intros c. rewrite elem_of_app, list_elem_of_singleton. split.
    + intros Hc.
      assert (c ∈ ec ∨ (v = 0 ∧ c = (i, j))) as [Hc'|[-> ->]].
      { case_decide; [|by left].
        apply elem_of_app in Hc as [?|?%list_elem_of_singleton]; auto. }
      * apply Hidx in Hc' as [Hcp Hc0]. destruct (Hpre c Hcp) as [Hcin Hne].
        split; [by left|]. apply Hh; [done|]. by rewrite decide_False.
      * split; [by right|]. apply Hh; [done|]. by rewrite decide_True.
    + intros [[Hcp| ->] Hc0].
      * destruct (Hpre c Hcp) as [Hcin Hne].
        apply Hh in Hc0; [|done]. rewrite decide_False in Hc0 by done.
        assert (c ∈ ec) by by apply Hidx.
        case_decide; [rewrite elem_of_app|]; auto.
      * apply Hh in Hc0; [|done]. rewrite decide_True in Hc0 by done.
        rewrite decide_True by done.
        rewrite elem_of_app, list_elem_of_singleton. auto.
  - intros c Hc Hnot. pose proof (proj1 (in_range_upd _ _ _ _) Hc) as Hc'.
    assert ((c ∉ pre) ∧ (c ≠ (i, j))) as [Hc1 Hc2].
    { rewrite not_elem_of_app, not_elem_of_cons in Hnot. tauto. }
    apply Hh; [done|]. rewrite decide_False by done. by apply Hrest.
Qed.

(** What [initialize_grid] returns: a well-formed square grid and the
    index of its empty cells. *)
Lemma initialize_grid_inv size fe fa r g ec r' :
  initialize_grid size fe fa r = (Ok (g, ec), r') →
  rect g ∧ valid_codes g ∧ shape0 g = size ∧ shape1 g = size ∧
  NoDup ec ∧ ∀ c, c ∈ ec ↔ in_range g c ∧ holds g 0 c.
Proof.
  unfold initialize_grid, bind at 1, lift.
  destruct (np_zeros size size) as [g0|e] eqn:Hz; [|done].
  apply np_zeros_Ok in Hz as [Hsize ->].
  destruct (zeros_shape size Hsize) as (H0 & H1 & Hr & Hv & Hzero).
  rewrite for_M_nested. intros Hrun.
  pose proof (for_M_prefix_inv (init_inv size)
                (cprod (range size) (range size))
                (λ locals c, init_cell fe fa c.1 locals c.2)) as Hinv.
  assert (init_inv size []
            (replicate (Z.to_nat size) (replicate (Z.to_nat size) 0), []))
    as Hstart.
  { unfold init_inv. do 4 (split; [done|]). split; [constructor|].
    split; [|by intros; apply Hzero]. intros c.
    split; [by intros ?%not_elem_of_nil|by intros [?%not_elem_of_nil _]]. }
  specialize (Hinv (init_inv_step size fe fa) _ _ _ _ Hstart Hrun).
  destruct Hinv as (Hr' & Hv' & H0' & H1' & Hnd & Hidx & _).
  do 5 (split; [done|]). intros c. rewrite Hidx.
  rewrite <- elem_of_all_coords. unfold all_coords. by rewrite H0', H1'.
Qed.

Lemma reachable_wf h : reachable h → wf_heap h.
Proof.
  induction 1 as [size fe fa r g ec r' Hinit|h size thr k r h' _ IH Hu].
  - destruct (initialize_grid_inv _ _ _ _ _ _ _ Hinit)
      as (Hr & Hv & _ & _ & Hnd & Hidx).
    by constructor.
  - pose proof (update_wf size thr k h IH) as H. by rewrite Hu in H.
Qed.

Lemma wf_heap_consistent g ec :
  NoDup ec → (∀ c, c ∈ ec ↔ in_range g c ∧ holds g 0 c) → consistent g ec.
Proof.
  intros Hnd Hidx. split; [|done].
  unfold count_cells. apply Permutation_length.
  apply NoDup_Permutation; [done|apply NoDup_cells_with|].
  intros c. by rewrite elem_of_cells_with.
Qed.

(** ** The loops of average_neighbor_similarity *)

Lemma for_res_app {A B} (l1 l2 : list A) (body : B → A → res B) b :
  for_res (l1 ++ l2) body b = res_bind (for_res l1 body b) (for_res l2 body).
Proof.
  revert b. induction l1 as [|a l1 IH]; intros b; [done|].
  cbn [app for_res]. destruct (body b a) as [b'|e]; [|done]. apply IH.
Qed.

Lemma for_res_fmap {A A' B} (f : A' → A) (l : list A') (body : B → A → res B) b :
  for_res (f <$> l) body b = for_res l (λ b a, body b (f a)) b.
Proof.
  revert b. induction l as [|a l IH]; intros b; [done|].
  cbn [fmap list_fmap for_res]. destruct (body b (f a)); [|done]. apply IH.
Qed.

Lemma for_res_nested {A1 A2 B} (l1 : list A1) (l2 : list A2)
    (body : A1 → B → A2 → res B) b :
  for_res l1 (λ b i, for_res l2 (body i) b) b =
  for_res (cprod l1 l2) (λ b c, body c.1 b c.2) b.
Proof.
  revert b. induction l1 as [|i l1 IH]; intros b; [done|].
  change (cprod (i :: l1) l2) with (((i,.) <$> l2) ++ cprod l1 l2).
  rewrite for_res_app, for_res_fmap. cbn [for_res fst snd].
  destruct (for_res l2 _ b) as [b'|e]; [|done]. apply IH.
Qed.

Lemma collect_loop g (cs : list coord) (l : list Q) :
  Forall (λ c, ∃ r, fraction_neighbors_same c.1 c.2 g = Ok r) cs →
  for_res cs (λ l c, collect_cell g c.1 l c.2) l =
  Ok (l ++ omap (defined_at g) cs).
Proof.
  intros HF. revert l. induction HF as [|c cs [r Hr] _ IH]; intros l.
  - by rewrite app_nil_r.
  - cbn [for_res omap list_omap]. unfold collect_cell at 1, defined_at at 1.
    rewrite Hr. cbn [res_bind].
    destruct r as [q|]; cbn [res_bind]; rewrite IH; [|done].
    by rewrite <- app_assoc.
Qed.

Lemma average_neighbor_similarity_unfold g :
  Forall (λ c, ∃ r, fraction_neighbors_same c.1 c.2 g = Ok r) (all_coords g) →
  average_neighbor_similarity g = Ok (np_mean (defined_values g)).
Proof.
  intros HF. unfold average_neighbor_similarity. cbv zeta.
  rewrite (for_res_nested _ _ (collect_cell g)).
  fold (all_coords g). by rewrite collect_loop.
Qed.

Lemma fraction_neighbors_same_everywhere g :
  rect g → valid_codes g →
  Forall (λ c, ∃ r, fraction_neighbors_same c.1 c.2 g = Ok r) (all_coords g).
Proof.
  intros Hr Hv. apply Forall_forall. intros [x y] Hc%elem_of_all_coords.
  destruct (fraction_neighbors_same_total g x y Hr Hv Hc)
    as (agent & vs & _ & _ & _ & E). simpl. rewrite E. eauto.
Qed.

(** ** The zero threshold *)

Lemma neighbor_step_nonneg g x y agent acc d acc' :
  neighbor_step g x y agent acc d = Ok acc' →
  0 ≤ acc.1 → 0 ≤ acc.2 → 0 ≤ acc'.1 ∧ 0 ≤ acc'.2.
Proof.
  destruct acc as [s t], d as [dx dy]. unfold neighbor_step.
  destruct (py_mod _ _); [|done]. destruct (py_mod _ _); [|done].
  cbn [res_bind]. destruct (grid_get _ _ _) as [v|]; [|done]. cbn [res_bind].
  destruct (0 <? v), (v =? agent); intros [= <-]; simpl; lia.
Qed.

Lemma neighbor_loop_nonneg g x y agent ds acc acc' :
  for_res ds (neighbor_step g x y agent) acc = Ok acc' →
  0 ≤ acc.1 → 0 ≤ acc.2 → 0 ≤ acc'.1 ∧ 0 ≤ acc'.2.
Proof.
  revert acc. induction ds as [|d ds IH]; intros acc.
  - intros [= <-]. done.
  - cbn [for_res].
    destruct (neighbor_step g x y agent acc d) as [acc1|] eqn:E; [|done].
    cbn [res_bind]. intros Hrun H1 H2.
    destruct (neighbor_step_nonneg _ _ _ _ _ _ _ E H1 H2).
    by apply (IH acc1).
Qed.

Lemma fraction_nonneg g x y f :
  fraction_neighbors_same x y g = Ok (Some f) → Qle_bool 0 f = true.
Proof.
  unfold fraction_neighbors_same.
  destruct (grid_get g x y) as [agent|]; [|done]. cbn [res_bind].
  destruct (agent =? 0); [done|].
  destruct (for_res _ _ _) as [[s t]|] eqn:E; [|done]. cbn [res_bind].
  destruct (neighbor_loop_nonneg _ _ _ _ _ _ _ E) as [Hs Ht]; [done..|].
  simpl in Hs, Ht. destruct (Z.eqb_spec t 0); [done|]. intros [= <-].
  apply Qle_bool_iff. apply Qle_shift_div_l.
  - unfold Qlt. simpl. lia.
  - rewrite Qmult_0_l. unfold Qle. simpl. lia.
Qed.

Lemma is_satisfied_zero g x y : is_satisfied x y g 0 ≠ Ok false.
Proof.
  intros (agent & f & _ & _ & Hf & Hle)%is_satisfied_false.
  apply fraction_nonneg in Hf. congruence.
Qed.

Lemma update_body_zero size was_move i h :
  let out := update_body size 0 was_move i h in
  grid out.2 = grid h ∧ emptycells out.2 = emptycells h ∧
  (out.1 = Ok was_move ∨ ∃ e, out.1 = Raise e).
Proof.
  cbv zeta. turn_cases size 0%Q was_move i h x y Hx Hy E.
  - rewrite E. eauto.
  - pose proof (is_satisfied_zero (grid h) x y) as Hz.
    destruct (is_satisfied x y (grid h) 0) as [[|]|e]; [|done|];
      rewrite E; simpl; eauto.
Qed.

Lemma update_zero size agents_per_step h :
  let out := update size 0 agents_per_step h in
  grid out.2 = grid h ∧ emptycells out.2 = emptycells h ∧
  (out.1 = Ok false ∨ ∃ e, out.1 = Raise e).
Proof.
  pose proof (for_M_no_change (λ h, (grid h, emptycells h)) (λ _, True)
                (range agents_per_step) (update_body size 0)) as H.
  destruct (H (λ b a s _,
                 match update_body_zero size b a s with
                 | conj Hg (conj He Hr) =>
                     conj (f_equal2 pair Hg He) (conj I Hr)
                 end) false h I) as ([= Hg He] & _ & Hr).
  done.
Qed.

(** ** The empty index *)

Lemma update_body_stuck size thr was_move i h :
  emptycells h = [] →
  let out := update_body size thr was_move i h in
  grid out.2 = grid h ∧ emptycells out.2 = [] ∧
  (out.1 = Ok was_move ∨ ∃ e, out.1 = Raise e).
Proof.
  destruct h as [g ec r]. simpl. intros ->.
  turn_cases size thr was_move i
    {| grid := g; emptycells := []; rng := r |} x y Hx Hy E.
  - rewrite E. eauto.
  - simpl in E.
    destruct (is_satisfied x y g thr) as [[|]|e]; rewrite E; simpl; eauto.
Qed.

Lemma update_body_unguarded size thr was_move i h x y :
  emptycells h = [] → 0 < size →
  x = tape (rng h) (pos (rng h)) mod size →
  y = tape (rng h) (S (pos (rng h))) mod size →
  is_satisfied x y (grid h) thr = Ok false →
  update_body size thr was_move i h =
  (Raise ValueError,
   if size <=? 2 ^ 63 then with_rng h (advance 2 (rng h)) else h).
Proof.
  destruct h as [g ec r]. simpl. intros -> Hs -> -> Hsat.
  destruct (update_body_cases size thr was_move i
              {| grid := g; emptycells := []; rng := r |})
    as [[? E]|(x & y & [? _] & _ & -> & -> & E)]; cbv zeta in E.
  - destruct (Z.leb_spec size (2 ^ 63)); [lia|done].
  - destruct (Z.leb_spec size (2 ^ 63)); [|lia].
    simpl in E. by rewrite Hsat in E.
Qed.

Lemma update_stuck size thr agents_per_step h :
  emptycells h = [] →
  let out := update size thr agents_per_step h in
  grid out.2 = grid h ∧ emptycells out.2 = [] ∧
  (out.1 = Ok false ∨ ∃ e, out.1 = Raise e).
Proof.
  intros He.
  exact (for_M_no_change grid (λ h, emptycells h = [])
           (range agents_per_step) (update_body size thr)
           (λ b a s Hs, update_body_stuck size thr b a s Hs) false h He).
Qed.

(** On the full checker board every cell is unsatisfied at threshold 3/5,
    so the first turn raises whatever is sampled. *)
Lemma checker_update_raises (r : RandomState) :
  update 2 (3 # 5) 1 (checker_heap r) =
  (Raise ValueError, checker_heap (advance 2 r)).
Proof.
  unfold update. change (range 1) with [0]. cbn [for_M]. unfold bind.
  set (x := tape r (pos r) mod 2). set (y := tape r (S (pos r)) mod 2).
  assert (is_satisfied x y checker_grid (3 # 5) = Ok false) as Hsat.
  { assert (x = 0 ∨ x = 1) as [-> | ->]
      by (pose proof (Z.mod_pos_bound (tape r (pos r)) 2); lia);
    assert (y = 0 ∨ y = 1) as [-> | ->]
      by (pose proof (Z.mod_pos_bound (tape r (S (pos r))) 2); lia);
    reflexivity. }
  by rewrite (update_body_unguarded 2 (3 # 5) false 0 (checker_heap r) x y).
Qed.

Lemma is_satisfied_returns g x y thr :
  rect g → valid_codes g → in_range g (x, y) →
  ∃ b, is_satisfied x y g thr = Ok b.
Proof.
  intros Hr Hv Hin.
  destruct (fraction_neighbors_same_total g x y Hr Hv Hin)
    as (agent & vs & _ & _ & _ & E).
  unfold is_satisfied. rewrite E. cbn [res_bind].
  match goal with |- context [match ?r with _ => _ end] => destruct r end; eauto.
Qed.


Lemma update_body_zero_returns size was_move i h :
  rect (grid h) → valid_codes (grid h) → fits (grid h) size →
  update_body size 0 was_move i h =
  (Ok was_move, with_rng h (advance 2 (rng h))).
Proof.
  intros Hr Hv (Hs & H0 & H1).
  turn_cases size 0%Q was_move i h x y Hx Hy E; [lia|].
  destruct (is_satisfied_returns (grid h) x y 0 Hr Hv) as [b Hb].
  { split; simpl; lia. }
  pose proof (is_satisfied_zero (grid h) x y) as Hz.
  rewrite Hb in E, Hz. by destruct b.
Qed.

Lemma update_zero_returns size agents_per_step h :
  rect (grid h) → valid_codes (grid h) → fits (grid h) size →
  ∃ r', update size 0 agents_per_step h = (Ok false, with_rng h r').
Proof.
  intros Hr Hv Hfit. unfold update. generalize false.
  generalize (range agents_per_step). intros l.
  assert (∀ r b, ∃ r', for_M l (update_body size 0) b (with_rng h r) =
                       (Ok b, with_rng h r')) as Hgen.
  { induction l as [|i l IH]; intros r b; [by exists r|].
    cbn [for_M]. unfold bind.
    rewrite update_body_zero_returns by done. apply IH. }
  intros b. destruct (Hgen (rng h) b) as [r' E]. exists r'.
  by destruct h.
Qed.

Lemma run_updates_zero ticks h :
  let out := run_updates 0 ticks h in
  grid out.2 = grid h ∧ emptycells out.2 = emptycells h ∧
  ∀ flags, out.1 = Ok flags → flags = replicate (length ticks) false.
Proof.
  revert h. induction ticks as [|t ticks IH]; intros h; cbv zeta.
  - simpl. split_and!; [done..|]. by intros ? [= <-].
  - cbn [run_updates]. unfold bind.
    destruct (update_zero t.1 t.2 h) as (Hg & He & Hr).
    destruct (update t.1 0 t.2 h) as [[b|e] h1]; simpl in *; [|done].
    destruct Hr as [[= ->]|[? [=]]].
    destruct (IH h1) as (Hg' & He' & Hr').
    destruct (run_updates 0 ticks h1) as [[flags|e] h2]; simpl in *.
    + split_and!; [congruence..|]. intros ? [= <-]. f_equal. by apply Hr'.
    + split_and!; [congruence..|done].
Qed.

Lemma run_updates_zero_returns ticks h :
  rect (grid h) → valid_codes (grid h) →
  Forall (λ t, fits (grid h) t.1) ticks →
  ∃ r', run_updates 0 ticks h =
        (Ok (replicate (length ticks) false), with_rng h r').
Proof.
  intros Hr Hv HF.
  assert (∀ r, ∃ r', run_updates 0 ticks (with_rng h r) =
                     (Ok (replicate (length ticks) false), with_rng h r'))
    as Hgen.
  { induction HF as [|t ticks Ht _ IH]; intros r; [by exists r|].
    cbn [run_updates]. unfold bind.
    destruct (update_zero_returns t.1 t.2 (with_rng h r)) as [r1 E]; [done..|].
    rewrite E. change (with_rng (with_rng h r) r1) with (with_rng h r1).
    destruct (IH r1) as [r2 E2]. rewrite E2. by exists r2. }
  destruct (Hgen (rng h)) as [r' E]. exists r'. by destruct h.
Qed.

(** The heap before turn [j] of a call is the heap a call with [j] turns
    leaves, so the heaps inside a call are reachable heaps too. *)
Lemma update_snoc size thr j h :
  0 ≤ j →
  update size thr (j + 1) h =
  bind (update size thr j) (λ was_move, update_body size thr was_move j) h.
Proof.
  intros Hj. unfold update, range. rewrite seqZ_app by lia.
  rewrite for_M_app. apply bind_ext. intros b s.
  rewrite (seqZ_cons (0 + j) 1), seqZ_nil by lia. cbn [for_M]. unfold bind.
  rewrite Z.add_0_l. by destruct (update_body size thr b j s) as [[?|?] ?].
Qed.

(** ** The population over a call *)

(** One turn on a well-formed heap: what it leaves, whatever its outcome. *)
Lemma update_body_conserves size thr was_move i h :
  wf_heap h →
  ∀ v, count_cells (grid (update_body size thr was_move i h).2) v =
       count_cells (grid h) v.
Proof.
  intros Hwf v.
  turn_cases size thr was_move i h x y Hx Hy E; [by rewrite E|].
  destruct (is_satisfied x y (grid h) thr) as [[|]|e] eqn:Hsat;
    rewrite E; try done.
  destruct (is_satisfied_false _ _ _ _ Hsat) as (agent & f & Hget & Hne & _).
  assert (in_range (grid h) (x, y)) as Hin
    by (eapply grid_get_Ok_in_range; [lia..|done]).
  destruct h as [g ec r]. simpl in *. unfold with_rng. simpl.
  destruct (decide (ec = [])) as [->|Hec].
  { by rewrite relocate_empty_index. }
  destruct (relocate_moves g ec (advance 2 r) x y agent) as
    (k & new & _ & Hk & Hnin & Hn0 & Hdiff & Hrel);
    [by apply (wf_heap_with_rng _ (advance 2 r)) in Hwf|done..|].
  rewrite Hrel. simpl.
  destruct (moved_grid g (x, y) new agent) as (_ & _ & _ & F4);
    [by destruct Hwf|done..|]. apply F4.
Qed.

Lemma update_wf_counts size thr agents_per_step h :
  wf_heap h →
  let h' := (update size thr agents_per_step h).2 in
  wf_heap h' ∧ ∀ v, count_cells (grid h') v = count_cells (grid h) v.
Proof.
  intros Hwf. unfold update.
  apply (for_M_state_inv
           (λ s, wf_heap s ∧ ∀ v, count_cells (grid s) v = count_cells (grid h) v)
           (range agents_per_step) (update_body size thr));
    [|done].
  intros b a s [Hs Hc]. split; [by apply update_body_wf|].
  intros v. by rewrite update_body_conserves.
Qed.

(** ** The examples *)

Example demo_initialize_grid :
  initialize_grid 3 (1 # 3) (1 # 2) (rng_of demo_tape) =
  (Ok (grid demo_heap, emptycells demo_heap), rng demo_heap).
Proof. reflexivity. Qed.

Lemma demo_heap_reachable : reachable demo_heap.
Proof. exact (reachable_init _ _ _ _ _ _ _ demo_initialize_grid). Qed.

Example demo_fraction :
  fraction_neighbors_same 0 0 demo_grid = Ok (Some (inject_Z 2 / inject_Z 6)%Q).
Proof. reflexivity. Qed.

Example demo_update :
  let out := update 3 (3 # 5) 1 demo_heap in
  out.1 = Ok true ∧ grid out.2 = [[0; 2; 0]; [2; 1; 2]; [1; 1; 2]] ∧
  emptycells out.2 = [(0, 2); (0, 0)].
Proof. by vm_compute. Qed.

Example demo_update_body :
  update_body 3 (3 # 5) false 0 demo_heap = (Ok true, demo_heap_moved).
Proof. reflexivity. Qed.

Example checker_initialize_grid :
  initialize_grid 2 0 (1 # 2) (rng_of checker_tape) =
  (Ok (checker_grid, []), advance 8 (rng_of checker_tape)).
Proof. reflexivity. Qed.

(** ** The properties of the specification *)

(** C1: the empty-cell index agrees with the grid in every reachable heap,
    that is, for the objects [initialize_grid] returns and after every
    call of [update]: the index has as many entries as the grid has empty
    cells, has no duplicate, and lists exactly the in-range coordinates
    whose cell is empty. *)
Theorem empty_index_consistent (h : Heap) :
  reachable h →
  consistent (grid h) (emptycells h) ∧
  ∀ size similarity_threshold agents_per_step,
    let h' := (update size similarity_threshold agents_per_step h).2 in
    consistent (grid h') (emptycells h').
Proof.
  intros Hreach. split.
  - destruct (reachable_wf h Hreach). by apply wf_heap_consistent.
  - intros size thr k h'.
    destruct (update_wf size thr k h (reachable_wf h Hreach)).
    by apply wf_heap_consistent.
Qed.

Lemma empty_index_consistent_witness :
  reachable demo_heap ∧
  consistent (grid demo_heap) (emptycells demo_heap) ∧
  ∀ size similarity_threshold agents_per_step,
    let h' := (update size similarity_threshold agents_per_step demo_heap).2 in
    consistent (grid h') (emptycells h').
Proof.
  split.
  - exact (reachable_init _ _ _ _ _ _ _ demo_initialize_grid).
  - apply (empty_index_consistent demo_heap).
    exact (reachable_init _ _ _ _ _ _ _ demo_initialize_grid).
Defined.

(** C2: at an in-range, occupied cell with at least one occupied Moore
    neighbour, [fraction_neighbors_same] returns [same / total], where the
    neighbours are the eight offsets of -1, 0, 1 (without (0, 0)) wrapped
    modulo the shape, [total] counts the occupied ones and [same] those of
    the cell's own type; eight cells are examined wherever the cell lies,
    and the fraction is between 0 and 1. *)
Theorem fraction_neighbors_same_spec (g : Grid) (x y agent : Z) :
  rect g → valid_codes g → 1 ≤ shape0 g → in_range g (x, y) →
  grid_get g x y = Ok agent → agent ≠ 0 →
  length (moore_neighbors g x y) = 8%nat ∧
  Forall (in_range g) (moore_neighbors g x y) ∧
  ∃ vs, Forall2 (reads g) (moore_neighbors g x y) vs ∧
        (0 < count_occupied vs →
         let same := count_same agent vs in
         let total := count_occupied vs in
         fraction_neighbors_same x y g = Ok (Some (inject_Z same / inject_Z total)%Q) ∧
         (0 <= inject_Z same / inject_Z total)%Q ∧
         (inject_Z same / inject_Z total <= 1)%Q).
Proof.
  intros Hr Hv _ Hin Hget Hne.
  destruct (fraction_neighbors_same_total g x y Hr Hv Hin)
    as (agent' & vs & Hget' & _ & Hreads & Hf).
  assert (agent' = agent) as -> by congruence.
  split; [reflexivity|]. split.
  - apply Forall_fmap, Forall_forall. intros d _.
    destruct (in_range_pos _ _ Hin). by apply wrap_in_range.
  - exists vs. split; [done|]. intros Hpos same total.
    rewrite Hf. do 2 (case_decide; [lia|]). split; [done|].
    apply Qfraction_bounds; [|done]. pose proof (count_bounds agent vs). lia.
Qed.

Lemma fraction_neighbors_same_spec_witness :
  (rect demo_grid ∧ valid_codes demo_grid ∧ 1 ≤ shape0 demo_grid ∧
   in_range demo_grid (0, 0) ∧ grid_get demo_grid 0 0 = Ok 1 ∧ 1 ≠ 0) ∧
  length (moore_neighbors demo_grid 0 0) = 8%nat ∧
  Forall (in_range demo_grid) (moore_neighbors demo_grid 0 0) ∧
  ∃ vs, Forall2 (reads demo_grid) (moore_neighbors demo_grid 0 0) vs ∧
        (0 < count_occupied vs →
         let same := count_same 1 vs in
         let total := count_occupied vs in
         fraction_neighbors_same 0 0 demo_grid =
         Ok (Some (inject_Z same / inject_Z total)%Q) ∧
         (0 <= inject_Z same / inject_Z total)%Q ∧
         (inject_Z same / inject_Z total <= 1)%Q).
Proof.
  assert (rect demo_grid) as H1 by compute_done.
  assert (valid_codes demo_grid) as H2 by compute_done.
  assert (1 ≤ shape0 demo_grid) as H3 by compute_done.
  assert (in_range demo_grid (0, 0)) as H4 by compute_done.
  assert (grid_get demo_grid 0 0 = Ok 1) as H5 by reflexivity.
  assert (1 ≠ 0) as H6 by lia.
  split; [done|].
  exact (fraction_neighbors_same_spec demo_grid 0 0 1 H1 H2 H3 H4 H5 H6).
Defined.

(** C3: at an in-range cell, [fraction_neighbors_same] returns [None]
    exactly when the cell is empty or all eight Moore neighbours are empty;
    [None] is no fraction, in particular not the fraction 0. *)
Theorem fraction_neighbors_same_undefined (g : Grid) (x y : Z) :
  rect g → valid_codes g → in_range g (x, y) →
  ∃ agent vs r,
    grid_get g x y = Ok agent ∧
    Forall2 (reads g) (moore_neighbors g x y) vs ∧ length vs = 8%nat ∧
    fraction_neighbors_same x y g = Ok r ∧
    (r = None ↔ agent = 0 ∨ Forall (λ v, v = 0) vs) ∧
    (r = None → ∀ q : Q, r ≠ Some q).
Proof.
  intros Hr Hv Hin.
  destruct (fraction_neighbors_same_total g x y Hr Hv Hin)
    as (agent & vs & Hget & _ & Hreads & Hf).
  eexists agent, vs, _. split; [done|]. split; [done|].
  split; [by rewrite <- (Forall2_length _ _ _ Hreads)|].
  split; [exact Hf|]. split.
  - rewrite <- count_occupied_zero. clear.
    repeat case_decide; intuition congruence.
  - intros Hq q. rewrite Hq. discriminate.
Qed.

Lemma fraction_neighbors_same_undefined_witness :
  (rect demo_grid ∧ valid_codes demo_grid ∧ in_range demo_grid (0, 2)) ∧
  ∃ agent vs r,
    grid_get demo_grid 0 2 = Ok agent ∧
    Forall2 (reads demo_grid) (moore_neighbors demo_grid 0 2) vs ∧
    length vs = 8%nat ∧
    fraction_neighbors_same 0 2 demo_grid = Ok r ∧
    (r = None ↔ agent = 0 ∨ Forall (λ v, v = 0) vs) ∧
    (r = None → ∀ q : Q, r ≠ Some q).
Proof.
  assert (rect demo_grid) as H1 by compute_done.
  assert (valid_codes demo_grid) as H2 by compute_done.
  assert (in_range demo_grid (0, 2)) as H3 by compute_done.
  split; [done|].
  exact (fraction_neighbors_same_undefined demo_grid 0 2 H1 H2 H3).
Defined.

(** C4: [is_satisfied] returns [True] exactly when
    [fraction_neighbors_same] returns [None] or a fraction that is at least
    the threshold, and [False] otherwise. *)
Theorem is_satisfied_spec (g : Grid) (x y : Z) (similarity_threshold : Q) :
  rect g → valid_codes g → in_range g (x, y) →
  ∃ r b,
    fraction_neighbors_same x y g = Ok r ∧
    is_satisfied x y g similarity_threshold = Ok b ∧
    (b = true ↔ r = None ∨ ∃ f, r = Some f ∧ (similarity_threshold <= f)%Q) ∧
    (b = false ↔ ∃ f, r = Some f ∧ (f < similarity_threshold)%Q).
Proof.
  intros Hr Hv Hin.
  destruct (fraction_neighbors_same_total g x y Hr Hv Hin)
    as (agent & vs & _ & _ & _ & Hf).
  unfold is_satisfied. rewrite Hf. clear Hf.
  match goal with |- context [Ok ?r] => generalize r end.
  intros [f|]; simpl.
  - exists (Some f), (Qle_bool similarity_threshold f).
    split; [done|]. split; [done|]. split.
    + rewrite Qle_bool_iff. split; [by right; exists f|].
      by intros [[=]|(f' & [= <-] & H)].
    + rewrite <- not_true_iff_false, Qle_bool_iff. split.
      * intros H. exists f. split; [done|]. by apply Qnot_le_lt.
      * intros (f' & [= <-] & H). by apply Qlt_not_le.
  - exists None, true. split; [done|]. split; [done|]. split; [split; auto|].
    split; [done|]. by intros (f & ? & _).
Qed.

Lemma is_satisfied_spec_witness :
  (rect demo_grid ∧ valid_codes demo_grid ∧ in_range demo_grid (0, 0)) ∧
  ∃ r b,
    fraction_neighbors_same 0 0 demo_grid = Ok r ∧
    is_satisfied 0 0 demo_grid (3 # 5) = Ok b ∧
    (b = true ↔ r = None ∨ ∃ f, r = Some f ∧ (3 # 5 <= f)%Q) ∧
    (b = false ↔ ∃ f, r = Some f ∧ (f < 3 # 5)%Q).
Proof.
  assert (rect demo_grid) as H1 by compute_done.
  assert (valid_codes demo_grid) as H2 by compute_done.
  assert (in_range demo_grid (0, 0)) as H3 by compute_done.
  split; [done|].
  exact (is_satisfied_spec demo_grid 0 0 (3 # 5) H1 H2 H3).
Defined.

(** C5: every turn of [update] on a well-formed heap, whatever the value
    of [was_move] it is entered with (so the first relocation of a call
    and every later one), either relocates nothing, and then leaves the
    grid and the index untouched, or relocates the sampled cell, which is
    unsatisfied, to an entry of the index; the relocation leaves the
    sampled cell empty and the chosen cell holding the agent's former
    code, changes no other cell, and keeps the number of cells of every
    code: type A, type B and empty. *)
Theorem relocation_conserves (size : Z) (similarity_threshold : Q)
    (was_move : bool) (i : Z) (h : Heap) (out : res bool) (h' : Heap) :
  wf_heap h →
  update_body size similarity_threshold was_move i h = (out, h') →
  (grid h' = grid h ∧ emptycells h' = emptycells h ∧
   (out = Ok was_move ∨ ∃ e, out = Raise e)) ∨
  (out = Ok true ∧
   ∃ x y agent new,
     x = tape (rng h) (pos (rng h)) mod size ∧
     y = tape (rng h) (S (pos (rng h))) mod size ∧
     is_satisfied x y (grid h) similarity_threshold = Ok false ∧
     in_range (grid h) (x, y) ∧ holds (grid h) agent (x, y) ∧ agent ≠ 0 ∧
     new ∈ emptycells h ∧ in_range (grid h) new ∧
     holds (grid h') 0 (x, y) ∧
     holds (grid h') agent new ∧
     (∀ c, in_range (grid h) c → c ≠ (x, y) → c ≠ new →
           grid_get (grid h') c.1 c.2 = grid_get (grid h) c.1 c.2) ∧
     (∀ v, count_cells (grid h') v = count_cells (grid h) v)).
Proof.
  intros Hwf Hrun.
  destruct (update_body_outcome size similarity_threshold was_move i h out h'
              Hwf Hrun)
    as [Hsame|(Hout & x & y & agent & k & new & Ex & Ey & Hsat & Hin & Hag
               & Hne & Hk & Hnin & Hn0 & Hdiff & -> & _)]; [by left|].
  right. split; [done|].
  destruct (moved_grid (grid h) (x, y) new agent) as (F1 & F2 & F3 & F4);
    [by destruct Hwf|done..|].
  exists x, y, agent, new. split_and!; try done.
  by eapply list_elem_of_lookup_2.
Qed.

Lemma relocation_conserves_witness :
  (wf_heap demo_heap ∧
   update_body 3 (3 # 5) true 0 demo_heap = (Ok true, demo_heap_moved)) ∧
  ∃ x y agent new,
    x = tape (rng demo_heap) (pos (rng demo_heap)) mod 3 ∧
    y = tape (rng demo_heap) (S (pos (rng demo_heap))) mod 3 ∧
    is_satisfied x y (grid demo_heap) (3 # 5) = Ok false ∧
    in_range (grid demo_heap) (x, y) ∧ holds (grid demo_heap) agent (x, y) ∧
    agent ≠ 0 ∧
    new ∈ emptycells demo_heap ∧ in_range (grid demo_heap) new ∧
    holds (grid demo_heap_moved) 0 (x, y) ∧
    holds (grid demo_heap_moved) agent new ∧
    (∀ c, in_range (grid demo_heap) c → c ≠ (x, y) → c ≠ new →
          grid_get (grid demo_heap_moved) c.1 c.2 =
          grid_get (grid demo_heap) c.1 c.2) ∧
    (∀ v, count_cells (grid demo_heap_moved) v = count_cells (grid demo_heap) v).
Proof.
  assert (wf_heap demo_heap) as H1 by exact (reachable_wf _ demo_heap_reachable).
  assert (update_body 3 (3 # 5) true 0 demo_heap = (Ok true, demo_heap_moved))
    as H2 by reflexivity.
  split; [done|].
  destruct (relocation_conserves 3 (3 # 5) true 0 demo_heap (Ok true)
              demo_heap_moved H1 H2) as [[Hsame _]|[_ Hmoved]].
  - discriminate Hsame.
  - exact Hmoved.
Defined.

(** C6, as stated, fails: with an empty index and an unsatisfied sampled
    cell the call of [update] raises [ValueError]. *)
Lemma update_unguarded_counterexample :
  emptycells (checker_heap (rng_of [0; 0])) = [] ∧
  is_satisfied 0 0 checker_grid (3 # 5) = Ok false ∧
  update 2 (3 # 5) 1 (checker_heap (rng_of [0; 0])) =
  (Raise ValueError, checker_heap (advance 2 (rng_of [0; 0]))).
Proof. split_and!; reflexivity. Qed.

(** C6, amended: with an empty index [update] relocates nothing, the grid
    and the index stay as they are and [was_move] is never [True]; the
    relocation is not guarded: a turn whose sampled cell is unsatisfied
    raises [ValueError] from [np.random.randint(0)], after the two draws
    of the sample (a [size] beyond [2 ^ 63] is rejected with the same
    error before anything is drawn). *)
Theorem update_without_free_cell (size : Z) (similarity_threshold : Q)
    (agents_per_step : Z) (h : Heap) :
  emptycells h = [] →
  (let out := update size similarity_threshold agents_per_step h in
   grid out.2 = grid h ∧ emptycells out.2 = [] ∧
   (out.1 = Ok false ∨ ∃ e, out.1 = Raise e)) ∧
  (∀ was_move i x y,
     0 < size →
     x = tape (rng h) (pos (rng h)) mod size →
     y = tape (rng h) (S (pos (rng h))) mod size →
     is_satisfied x y (grid h) similarity_threshold = Ok false →
     update_body size similarity_threshold was_move i h =
     (Raise ValueError,
      if size <=? 2 ^ 63 then with_rng h (advance 2 (rng h)) else h)).
Proof.
  intros He. split.
  - by apply update_stuck.
  - intros was_move i x y. by apply update_body_unguarded.
Qed.

Lemma update_without_free_cell_witness :
  emptycells (checker_heap (rng_of [0; 0])) = [] ∧
  (let out := update 2 (3 # 5) 1 (checker_heap (rng_of [0; 0])) in
   grid out.2 = grid (checker_heap (rng_of [0; 0])) ∧ emptycells out.2 = [] ∧
   (out.1 = Ok false ∨ ∃ e, out.1 = Raise e)) ∧
  (∀ was_move i x y,
     0 < 2 →
     x = tape (rng (checker_heap (rng_of [0; 0])))
           (pos (rng (checker_heap (rng_of [0; 0])))) mod 2 →
     y = tape (rng (checker_heap (rng_of [0; 0])))
           (S (pos (rng (checker_heap (rng_of [0; 0]))))) mod 2 →
     is_satisfied x y (grid (checker_heap (rng_of [0; 0]))) (3 # 5) = Ok false →
     update_body 2 (3 # 5) was_move i (checker_heap (rng_of [0; 0])) =
     (Raise ValueError,
      with_rng (checker_heap (rng_of [0; 0]))
        (advance 2 (rng (checker_heap (rng_of [0; 0])))))).
Proof.
  assert (emptycells (checker_heap (rng_of [0; 0])) = []) as H1 by reflexivity.
  split; [done|].
  exact (update_without_free_cell 2 (3 # 5) 1 (checker_heap (rng_of [0; 0])) H1).
Defined.

(** C7: when some coordinate has a defined similarity,
    [average_neighbor_similarity] returns the sum of the defined values of
    [fraction_neighbors_same] over all coordinates divided by their
    number. *)
Theorem average_is_mean_of_defined (g : list (list Z)) :
  rect g → valid_codes g → defined_values g ≠ [] →
  average_neighbor_similarity g =
  Ok (Num (Qsum (defined_values g) /
           inject_Z (Z.of_nat (length (defined_values g))))%Q).
Proof.
  intros Hr Hv Hne.
  rewrite average_neighbor_similarity_unfold
    by by apply fraction_neighbors_same_everywhere.
  unfold np_mean. by destruct (defined_values g).
Qed.

Lemma average_is_mean_of_defined_witness :
  (rect demo_grid ∧ valid_codes demo_grid ∧ defined_values demo_grid ≠ []) ∧
  average_neighbor_similarity demo_grid =
  Ok (Num (Qsum (defined_values demo_grid) /
           inject_Z (Z.of_nat (length (defined_values demo_grid))))%Q).
Proof.
  assert (rect demo_grid) as H1 by compute_done.
  assert (valid_codes demo_grid) as H2 by compute_done.
  assert (defined_values demo_grid ≠ []) as H3 by (vm_compute; discriminate).
  split; [done|].
  exact (average_is_mean_of_defined demo_grid H1 H2 H3).
Defined.

(** C8: when every coordinate yields [None], in particular on a grid
    with no agent, [average_neighbor_similarity] raises nothing and returns
    the not-a-number value [np.mean] gives for an empty list. *)
Theorem average_of_nothing_is_nan (g : list (list Z)) :
  (∀ c, in_range g c → fraction_neighbors_same c.1 c.2 g = Ok None) →
  average_neighbor_similarity g = Ok NaN.
Proof.
  intros Hnone.
  assert (Forall (λ c, fraction_neighbors_same c.1 c.2 g = Ok None)
            (all_coords g)) as HF.
  { apply Forall_forall. intros c Hc%elem_of_all_coords. by apply Hnone. }
  rewrite average_neighbor_similarity_unfold
    by (eapply Forall_impl; [exact HF|]; simpl; eauto).
  assert (defined_values g = []) as ->; [|done].
  unfold defined_values. induction HF as [|c cs Hc _ IH]; [done|].
  cbn [omap list_omap]. unfold defined_at at 1. by rewrite Hc.
Qed.

Lemma empty_grid_undefined (n : nat) c :
  let g := replicate n (replicate n 0) in
  in_range g c → fraction_neighbors_same c.1 c.2 g = Ok None.
Proof.
  intros g Hc.
  destruct (zeros_shape (Z.of_nat n)) as (_ & _ & _ & _ & Hz); [lia|].
  rewrite Nat2Z.id in Hz. specialize (Hz c Hc).
  unfold fraction_neighbors_same. unfold holds in Hz. fold g in Hz.
  by rewrite Hz.
Qed.

Lemma average_of_nothing_is_nan_witness :
  (∀ c, in_range (replicate 3 (replicate 3 0)) c →
        fraction_neighbors_same c.1 c.2 (replicate 3 (replicate 3 0)) = Ok None) ∧
  average_neighbor_similarity (replicate 3 (replicate 3 0)) = Ok NaN.
Proof.
  assert (∀ c, in_range (replicate 3 (replicate 3 0)) c →
               fraction_neighbors_same c.1 c.2 (replicate 3 (replicate 3 0))
               = Ok None) as H1 by exact (empty_grid_undefined 3).
  split; [done|].
  exact (average_of_nothing_is_nan (replicate 3 (replicate 3 0)) H1).
Defined.

(** C9: with [similarity_threshold = 0.0] no call of [update] relocates,
    whatever the random source draws: after any sequence of calls the grid
    and the index are what they were, and every returned [was_move] is
    [False]; on a well-formed grid that the sampled sizes fit, every call
    of the sequence returns. *)
Theorem zero_threshold_never_moves (ticks : list (Z * Z)) (h : Heap) :
  (let out := run_updates 0 ticks h in
   grid out.2 = grid h ∧ emptycells out.2 = emptycells h ∧
   ∀ flags, out.1 = Ok flags → flags = replicate (length ticks) false) ∧
  (rect (grid h) → valid_codes (grid h) →
   Forall (λ t, fits (grid h) t.1) ticks →
   ∃ r', run_updates 0 ticks h =
         (Ok (replicate (length ticks) false), with_rng h r')).
Proof.
  split.
  - apply run_updates_zero.
  - apply run_updates_zero_returns.
Qed.

Lemma zero_threshold_never_moves_witness :
  (rect (grid demo_heap) ∧ valid_codes (grid demo_heap) ∧
   Forall (λ t, fits (grid demo_heap) t.1) [(3, 5); (2, 4)]) ∧
  ∃ r', run_updates 0 [(3, 5); (2, 4)] demo_heap =
        (Ok [false; false], with_rng demo_heap r').
Proof.
  assert (rect (grid demo_heap)) as H1 by compute_done.
  assert (valid_codes (grid demo_heap)) as H2 by compute_done.
  assert (Forall (λ t, fits (grid demo_heap) t.1) [(3, 5); (2, 4)]) as H3
    by compute_done.
  split; [done|].
  exact (proj2 (zero_threshold_never_moves [(3, 5); (2, 4)] demo_heap) H1 H2 H3).
Defined.

(** C10: in a reachable heap, every turn of [update], whatever the value
    of [was_move] it is entered with, either leaves the grid and the index
    untouched or relocates: then the sampled cell is occupied and the
    chosen index entry is a different cell, so the two assignments hit two
    cells, the agent's code is at the chosen cell afterwards and the
    number of cells of each agent type is unchanged.  So no call of
    [update], of any number of turns, returning or raising, changes the
    number of agents of a type. *)
Theorem relocation_never_erases (size : Z) (similarity_threshold : Q)
    (h : Heap) :
  reachable h →
  (∀ was_move i out h',
     update_body size similarity_threshold was_move i h = (out, h') →
     (grid h' = grid h ∧ emptycells h' = emptycells h ∧
      (out = Ok was_move ∨ ∃ e, out = Raise e)) ∨
     (out = Ok true ∧
      ∃ x y agent k new,
        x = tape (rng h) (pos (rng h)) mod size ∧
        y = tape (rng h) (S (pos (rng h))) mod size ∧
        in_range (grid h) (x, y) ∧ holds (grid h) agent (x, y) ∧ agent ≠ 0 ∧
        emptycells h !! k = Some new ∧ in_range (grid h) new ∧
        new ≠ (x, y) ∧
        grid h' = upd (upd (grid h) new agent) (x, y) 0 ∧
        holds (grid h') agent new ∧
        (∀ v, v ≠ 0 → count_cells (grid h') v = count_cells (grid h) v))) ∧
  (∀ agents_per_step v,
     v ≠ 0 →
     count_cells
       (grid (update size similarity_threshold agents_per_step h).2) v =
     count_cells (grid h) v).
Proof.
  intros Hreach. pose proof (reachable_wf h Hreach) as Hwf. split.
  - intros was_move i out h' Hrun.
    destruct (update_body_outcome size similarity_threshold was_move i h out
                h' Hwf Hrun)
      as [Hsame|(Hout & x & y & agent & k & new & Ex & Ey & Hsat & Hin & Hag
                 & Hne & Hk & Hnin & Hn0 & Hdiff & Hg & _)]; [by left|].
    right. split; [done|].
    destruct (moved_grid (grid h) (x, y) new agent) as (_ & F2 & _ & F4);
      [by destruct Hwf|done..|].
    exists x, y, agent, k, new. rewrite Hg. split_and!; auto.
  - intros agents_per_step v _.
    by destruct (update_wf_counts size similarity_threshold agents_per_step
                   h Hwf) as [_ Hc].
Qed.

Lemma relocation_never_erases_witness :
  reachable demo_heap ∧
  (∃ x y agent k new,
     x = tape (rng demo_heap) (pos (rng demo_heap)) mod 3 ∧
     y = tape (rng demo_heap) (S (pos (rng demo_heap))) mod 3 ∧
     in_range (grid demo_heap) (x, y) ∧
     holds (grid demo_heap) agent (x, y) ∧ agent ≠ 0 ∧
     emptycells demo_heap !! k = Some new ∧
     in_range (grid demo_heap) new ∧ new ≠ (x, y) ∧
     grid demo_heap_moved = upd (upd (grid demo_heap) new agent) (x, y) 0 ∧
     holds (grid demo_heap_moved) agent new ∧
     (∀ v, v ≠ 0 →
           count_cells (grid demo_heap_moved) v =
           count_cells (grid demo_heap) v)) ∧
  (∀ agents_per_step v,
     v ≠ 0 →
     count_cells (grid (update 3 (3 # 5) agents_per_step demo_heap).2) v =
     count_cells (grid demo_heap) v).
Proof.
  assert (reachable demo_heap) as H1
    by exact (reachable_init _ _ _ _ _ _ _ demo_initialize_grid).
  assert (update_body 3 (3 # 5) true 0 demo_heap = (Ok true, demo_heap_moved))
    as H2 by reflexivity.
  split; [done|].
  destruct (relocation_never_erases 3 (3 # 5) demo_heap H1) as [Hturn Hcall].
  split; [|exact Hcall].
  destruct (Hturn true 0 (Ok true) demo_heap_moved H2)
    as [[Hsame _]|[_ Hmoved]].
  - discriminate Hsame.
  - exact Hmoved.
Defined.

(** * Further properties of the code *)

(** ** initialize_grid, in full *)

Lemma for_M_run_inv {S A B} (I : list A → B → S → Prop) (l : list A)
    (body : B → A → M S B) :
  (∀ pre a post b s,
     l = pre ++ a :: post → I pre b s →
     ∃ b' s', body b a s = (Ok b', s') ∧ I (pre ++ [a]) b' s') →
  ∀ b s, I [] b s → ∃ b' s', for_M l body b s = (Ok b', s') ∧ I l b' s'.
Proof.
  intros Hstep.
  assert (∀ rest pre b s,
            l = pre ++ rest → I pre b s →
            ∃ b' s', for_M rest body b s = (Ok b', s') ∧ I l b' s') as Hgen.
  { induction rest as [|a rest IH]; intros pre b s Hl Hpre.
    - rewrite app_nil_r in Hl. subst pre. by exists b, s.
    - destruct (Hstep pre a rest b s Hl Hpre) as (b1 & s1 & Hb & H1).
      cbn [for_M]. unfold bind. rewrite Hb.
      apply (IH (pre ++ [a])); [by rewrite <- app_assoc|done]. }
  intros b s H0. by apply (Hgen l []).
Qed.

Lemma rand_value (s : RandomState) :
  ∃ u, rand s = (Ok u, advance 1 s) ∧ (0 <= u)%Q ∧ (u < 1)%Q.
Proof.
  exists (Qmake (tape s (pos s) mod 2 ^ 53) (2 ^ 53)). split; [done|].
  pose proof (Z.mod_pos_bound (tape s (pos s)) (2 ^ 53) eq_refl) as Hb.
  unfold Qle, Qlt. cbn [Qnum Qden].
  change (Z.pos (2 ^ 53)) with (2 ^ 53). lia.
Qed.

Lemma Qlt_bool_true a b : Qlt_bool a b = true → (a < b)%Q.
Proof.
  unfold Qlt_bool. intros H%negb_true_iff. apply Qnot_le_lt.
  intros Hle%Qle_bool_iff. congruence.
Qed.

Lemma Qlt_bool_false a b : Qlt_bool a b = false → (b <= a)%Q.
Proof.
  unfold Qlt_bool. intros H%negb_false_iff. by apply Qle_bool_iff.
Qed.

(** One cell of [initialize_grid]: the code written, the index entry added
    and the draws used. *)
Lemma init_cell_run fe fa i j g ec s :
  in_range g (i, j) →
  ∃ v, init_cell fe fa i (g, ec) j s =
         (Ok (upd g (i, j) v, if decide (v = 0) then ec ++ [(i, j)] else ec),
          advance (if decide (v = 0) then 1 else 2) s) ∧
       allowed fe fa v ∧ valid_code v.
Proof.
  intros Hin. unfold init_cell.
  change (grid_set g i j) with (grid_set g (i, j).1 (i, j).2).
  rewrite !grid_set_in_range by done.
  destruct (rand_value s) as (u & Hu & Hu0 & Hu1).
  destruct (rand_value (advance 1 s)) as (u' & Hu' & Hu0' & Hu1').
  unfold bind at 1. rewrite Hu.
  destruct (Qlt_bool u fe) eqn:E1.
  { exists 0. split; [done|]. split; [|by left].
    apply Qlt_bool_true in E1. unfold allowed. split_and!; try done.
    intros _. exact (Qle_lt_trans _ _ _ Hu0 E1). }
  apply Qlt_bool_false in E1.
  assert ((fe < 1)%Q) as Hfe by exact (Qle_lt_trans _ _ _ E1 Hu1).
  unfold bind at 1. rewrite Hu'.
  destruct (Qlt_bool u' fa) eqn:E2.
  - exists 1. split; [done|]. split; [|by right; left].
    apply Qlt_bool_true in E2. unfold allowed. split_and!; try done.
    intros _. exact (Qle_lt_trans _ _ _ Hu0' E2).
  - exists 2. split; [done|]. split; [|by right; right].
    apply Qlt_bool_false in E2. unfold allowed. split_and!; try done.
    intros _. exact (Qle_lt_trans _ _ _ E2 Hu1').
Qed.

Lemma filter_agree {A} (P Q : A → Prop)
    `{!∀ x, Decision (P x)} `{!∀ x, Decision (Q x)} (l : list A) :
  (∀ x, x ∈ l → (P x ↔ Q x)) → filter P l = filter Q l.
Proof.
  induction l as [|a l IH]; intros Hag; [done|].
  rewrite !filter_cons, IH by (intros x ?; apply Hag; by right).
  assert (P a ↔ Q a) by (apply Hag; by left).
  repeat case_decide; tauto || done.
Qed.

Lemma prefix_facts size g (pre : list coord) a post :
  shape0 g = size → shape1 g = size →
  cprod (range size) (range size) = pre ++ a :: post →
  in_range g a ∧ (a ∉ pre) ∧ ∀ c, c ∈ pre → in_range g c ∧ c ≠ a.
Proof.
  intros H0 H1 Hl.
  assert (NoDup (pre ++ a :: post)) as Hndl.
  { rewrite <- Hl. pose proof (NoDup_all_coords g) as H.
    unfold all_coords in H. by rewrite H0, H1 in H. }
  assert (∀ c, c ∈ pre ++ a :: post → in_range g c) as Hall.
  { intros c Hc. apply elem_of_all_coords. unfold all_coords.
    by rewrite H0, H1, Hl. }
  assert (a ∉ pre) as Hfresh.
  { apply NoDup_app in Hndl as (_ & Hd & _). intros Hin.
    apply (Hd a Hin). by left. }
  split; [apply Hall; rewrite elem_of_app, elem_of_cons; auto|].
  split; [done|]. intros c Hc.
  split; [apply Hall; rewrite elem_of_app; auto|]. by intros ->.
Qed.

Lemma init_run_step size fe fa r0 pre a post locals s :
  cprod (range size) (range size) = pre ++ a :: post →
  init_run_inv size fe fa r0 pre locals s →
  ∃ locals' s',
    init_cell fe fa a.1 locals a.2 s = (Ok locals', s') ∧
    init_run_inv size fe fa r0 (pre ++ [a]) locals' s'.
Proof.
  destruct locals as [g ec]. intros Hl (Hinv & Hec & Htape & Hpos & Hcodes).
  cbn [fst snd] in *.
  pose proof Hinv as (Hr & _ & H0 & H1 & _).
  destruct (prefix_facts size g pre a post H0 H1 Hl) as (Ha & Hfresh & Hpre).
  destruct a as [i j].
  destruct (init_cell_run fe fa i j g ec s Ha) as (v & Hrun & Hal & Hvv).
  eexists _, _. split; [exact Hrun|].
  assert (∀ c w, c ∈ pre → holds (upd g (i, j) v) w c ↔ holds g w c) as Hold.
  { intros c w Hc. destruct (Hpre c Hc) as [Hcin Hne].
    rewrite holds_upd by done. by rewrite decide_False. }
  assert (holds (upd g (i, j) v) v (i, j)) as Hnew.
  { apply holds_upd; [done..|]. by rewrite decide_True. }
  split; [by eapply init_inv_step|]. cbn [fst snd]. split_and!.
  - rewrite filter_app, (filter_agree _ (holds g 0) pre), <- Hec
      by (intros; by apply Hold).
    rewrite (filter_singleton _ (i, j) []).
    assert (holds (upd g (i, j) v) 0 (i, j) ↔ v = 0) as Hv0.
    { unfold holds in *. rewrite Hnew. split; congruence. }
    repeat case_decide; try tauto; by rewrite ?app_nil_r.
  - done.
  - rewrite length_app. simpl.
    case_decide; rewrite ?length_app; simpl; lia.
  - intros c [Hc| ->%list_elem_of_singleton]%elem_of_app.
    + destruct (Hcodes c Hc) as (w & Hw & Hwa). exists w. split; [|done].
      by apply Hold.
    + by exists v.
Qed.

(** [initialize_grid] returns wherever its [np.zeros] does, and what it
    returns satisfies the invariant over all coordinates. *)
Lemma initialize_grid_run size fe fa r g0 :
  np_zeros size size = Ok g0 →
  ∃ g ec r',
    initialize_grid size fe fa r = (Ok (g, ec), r') ∧
    init_run_inv size fe fa r (cprod (range size) (range size)) (g, ec) r'.
Proof.
  intros Hz. unfold initialize_grid, bind at 1, lift. rewrite Hz.
  apply np_zeros_Ok in Hz as [Hsize ->].
  destruct (zeros_shape size Hsize) as (H0 & H1 & Hr & Hv & Hzero).
  rewrite for_M_nested.
  destruct (for_M_run_inv (init_run_inv size fe fa r)
              (cprod (range size) (range size))
              (λ locals c, init_cell fe fa c.1 locals c.2)
              (init_run_step size fe fa r)
              (replicate (Z.to_nat size) (replicate (Z.to_nat size) 0), [])
              r) as ([g ec] & r' & Hrun & Hinv).
  - unfold init_run_inv. cbn [fst snd]. split; [|split_and!].
    + unfold init_inv. do 4 (split; [done|]). split; [constructor|].
      split; [|by intros; apply Hzero]. intros c.
      split; [by intros ?%not_elem_of_nil|by intros [?%not_elem_of_nil _]].
    + done.
    + done.
    + simpl. lia.
    + by intros ? ?%not_elem_of_nil.
  - by exists g, ec, r'.
Qed.

Lemma length_all_coords g :
  length (all_coords g) = (length g * Z.to_nat (shape1 g))%nat.
Proof.
  unfold all_coords, range. rewrite list_cprod_list_prod, length_prod.
  rewrite !length_seqZ. unfold shape0. by rewrite Nat2Z.id.
Qed.

(** Everything the invariant says about a returned pair. *)
Lemma initialize_grid_facts size fe fa r g ec r' :
  initialize_grid size fe fa r = (Ok (g, ec), r') →
  0 ≤ size ∧ shape0 g = size ∧ shape1 g = size ∧
  ec = cells_with g 0 ∧ tape r' = tape r ∧
  (pos r' + length ec = pos r + 2 * (Z.to_nat size * Z.to_nat size))%nat ∧
  ∀ c, in_range g c → ∃ v, holds g v c ∧ allowed fe fa v.
Proof.
  intros Hinit.
  destruct (np_zeros size size) as [g0|e] eqn:Hz;
    [|by unfold initialize_grid, bind, lift in Hinit; rewrite Hz in Hinit].
  assert (0 ≤ size) as Hsize by by apply np_zeros_Ok in Hz as [? _].
  destruct (initialize_grid_run size fe fa r g0 Hz)
    as (g1 & ec1 & r1 & Hrun & Hinv & Hec & Htape & Hpos & Hcodes).
  rewrite Hinit in Hrun. injection Hrun as <- <- <-. cbn [fst snd] in *.
  destruct Hinv as (_ & _ & H0 & H1 & _).
  assert (cprod (range size) (range size) = all_coords g) as Hall
    by (unfold all_coords; by rewrite H0, H1).
  rewrite Hall in *. do 3 (split; [done|]). split; [done|]. split; [done|].
  split.
  - rewrite Hpos, length_all_coords, H1. unfold shape0 in H0. f_equal. f_equal.
    lia.
  - intros c Hc. apply Hcodes. by apply elem_of_all_coords.
Qed.

(** X1: [initialize_grid] fails only where its [np.zeros((size, size))]
    does, with the error of that call and drawing nothing; this is a
    [ValueError] for a negative [size] and for a [size] whose array of
    8-byte floats numpy cannot address ([8 * size * size >= 2 ^ 63]).
    Wherever the allocation returns, the two loops never raise: the call
    returns, and the grid is a [size] by [size] array whose cells all hold
    0, 1 or 2. *)
Theorem initialize_grid_returns (size : Z) (fraction_empty fraction_A : Q)
    (r : RandomState) :
  (∀ e, np_zeros size size = Raise e →
        initialize_grid size fraction_empty fraction_A r = (Raise e, r)) ∧
  (size < 0 ∨ 2 ^ 63 ≤ 8 * size * size →
   initialize_grid size fraction_empty fraction_A r = (Raise ValueError, r)) ∧
  (∀ g0, np_zeros size size = Ok g0 →
   ∃ g ec r',
     initialize_grid size fraction_empty fraction_A r = (Ok (g, ec), r') ∧
     shape0 g = size ∧ shape1 g = size ∧ rect g ∧ valid_codes g ∧
     0 ≤ size ∧ 8 * size * size < 2 ^ 63).
Proof.
  split_and!.
  - intros e Hz. unfold initialize_grid, bind, lift. by rewrite Hz.
  - intros Hbad. unfold initialize_grid, bind, lift.
    by rewrite np_zeros_rejects.
  - intros g0 Hz.
    destruct (initialize_grid_run size fraction_empty fraction_A r g0 Hz)
      as (g & ec & r' & Hrun & (Hr & Hv & H0 & H1 & _) & _).
    exists g, ec, r'. split_and!; try done.
    + by apply np_zeros_Ok in Hz as [? _].
    + destruct (Z.lt_ge_cases (8 * size * size) (2 ^ 63)) as [|Hbig]; [done|].
      rewrite np_zeros_rejects in Hz by (right; lia). done.
Qed.

Lemma initialize_grid_returns_witness :
  np_zeros 3 3 = Ok [[0; 0; 0]; [0; 0; 0]; [0; 0; 0]] ∧
  ∃ g ec r',
    initialize_grid 3 (1 # 3) (1 # 2) (rng_of demo_tape) = (Ok (g, ec), r') ∧
    shape0 g = 3 ∧ shape1 g = 3 ∧ rect g ∧ valid_codes g ∧
    0 ≤ 3 ∧ 8 * 3 * 3 < 2 ^ 63.
Proof.
  assert (np_zeros 3 3 = Ok [[0; 0; 0]; [0; 0; 0]; [0; 0; 0]]) as H1
    by reflexivity.
  split; [done|].
  exact (proj2 (proj2
           (initialize_grid_returns 3 (1 # 3) (1 # 2) (rng_of demo_tape)))
           _ H1).
Defined.

(** X2: the index [initialize_grid] returns lists the empty cells of the
    grid in row-major order: it is the row-major list of all coordinates
    with the occupied ones left out. *)
Theorem initialize_grid_row_major (size : Z) (fraction_empty fraction_A : Q)
    (r : RandomState) (g : list (list Z)) (ec : list coord)
    (r' : RandomState) :
  initialize_grid size fraction_empty fraction_A r = (Ok (g, ec), r') →
  ec = filter (holds g 0) (cprod (range size) (range size)).
Proof.
  intros Hinit.
  destruct (initialize_grid_facts _ _ _ _ _ _ _ Hinit)
    as (_ & H0 & H1 & Hec & _).
  rewrite Hec. unfold cells_with, all_coords. by rewrite H0, H1.
Qed.

Lemma initialize_grid_row_major_witness :
  initialize_grid 3 (1 # 3) (1 # 2) (rng_of demo_tape) =
  (Ok (grid demo_heap, emptycells demo_heap), rng demo_heap) ∧
  emptycells demo_heap =
  filter (holds (grid demo_heap) 0) (cprod (range 3) (range 3)).
Proof.
  assert (initialize_grid 3 (1 # 3) (1 # 2) (rng_of demo_tape) =
          (Ok (grid demo_heap, emptycells demo_heap), rng demo_heap)) as H1
    by reflexivity.
  split; [done|].
  exact (initialize_grid_row_major 3 (1 # 3) (1 # 2) (rng_of demo_tape)
           (grid demo_heap) (emptycells demo_heap) (rng demo_heap) H1).
Defined.

(** X3: [initialize_grid] reads the random tape without changing it and
    draws once for a cell it leaves empty and twice for a cell it
    occupies: [2 * size * size - len(empty_cells)] draws in all. *)
Theorem initialize_grid_draws (size : Z) (fraction_empty fraction_A : Q)
    (r : RandomState) (g : list (list Z)) (ec : list coord)
    (r' : RandomState) :
  initialize_grid size fraction_empty fraction_A r = (Ok (g, ec), r') →
  tape r' = tape r ∧
  (pos r' + length ec = pos r + 2 * (Z.to_nat size * Z.to_nat size))%nat.
Proof.
  intros Hinit.
  by destruct (initialize_grid_facts _ _ _ _ _ _ _ Hinit)
    as (_ & _ & _ & _ & Ht & Hp & _).
Qed.

Lemma initialize_grid_draws_witness :
  initialize_grid 3 (1 # 3) (1 # 2) (rng_of demo_tape) =
  (Ok (grid demo_heap, emptycells demo_heap), rng demo_heap) ∧
  tape (rng demo_heap) = tape (rng_of demo_tape) ∧
  (pos (rng demo_heap) + length (emptycells demo_heap) =
   pos (rng_of demo_tape) + 2 * (Z.to_nat 3 * Z.to_nat 3))%nat.
Proof.
  assert (initialize_grid 3 (1 # 3) (1 # 2) (rng_of demo_tape) =
          (Ok (grid demo_heap, emptycells demo_heap), rng demo_heap)) as H1
    by reflexivity.
  split; [done|].
  exact (initialize_grid_draws 3 (1 # 3) (1 # 2) (rng_of demo_tape)
           (grid demo_heap) (emptycells demo_heap) (rng demo_heap) H1).
Defined.

(** X4: the fractions at their bounds. With [fraction_empty <= 0] no cell
    is left empty and the index is empty; with [fraction_empty >= 1] every
    cell is empty and the index lists every coordinate; with
    [fraction_A <= 0] no cell is of type A and with [fraction_A >= 1] no
    cell is of type B. *)
Theorem initialize_grid_edge_fractions (size : Z)
    (fraction_empty fraction_A : Q) (r : RandomState) (g : list (list Z))
    (ec : list coord) (r' : RandomState) :
  initialize_grid size fraction_empty fraction_A r = (Ok (g, ec), r') →
  ((fraction_empty <= 0)%Q →
   ec = [] ∧ ∀ c, in_range g c → ¬ holds g 0 c) ∧
  ((1 <= fraction_empty)%Q →
   ec = all_coords g ∧ ∀ c, in_range g c → holds g 0 c) ∧
  ((fraction_A <= 0)%Q → ∀ c, in_range g c → ¬ holds g 1 c) ∧
  ((1 <= fraction_A)%Q → ∀ c, in_range g c → ¬ holds g 2 c).
Proof.
  intros Hinit.
  destruct (initialize_grid_facts _ _ _ _ _ _ _ Hinit)
    as (_ & _ & _ & Hec & _ & _ & Hcodes).
  assert (∀ c w, in_range g c → holds g w c →
                 allowed fraction_empty fraction_A w) as Hal.
  { intros c w Hc Hw. destruct (Hcodes c Hc) as (v & Hv & Ha).
    unfold holds in *. by assert (w = v) as -> by congruence. }
  split_and!.
  - intros Hfe.
    assert (∀ c, in_range g c → ¬ holds g 0 c) as Hno.
    { intros c Hc Hh. destruct (Hal c 0 Hc Hh) as (H0 & _).
      by apply (Qle_not_lt _ _ Hfe), H0. }
    split; [|done]. rewrite Hec. unfold cells_with.
    rewrite (filter_agree _ (λ _, False)); [by induction (all_coords g)|].
    intros c Hc%elem_of_all_coords. split; [by apply Hno|done].
  - intros Hfe.
    assert (∀ c, in_range g c → holds g 0 c) as Hyes.
    { intros c Hc. destruct (Hcodes c Hc) as (v & Hv & _ & Hne & _).
      destruct (decide (v = 0)) as [->|Hv0]; [done|].
      by destruct (Qle_not_lt _ _ Hfe (Hne Hv0)). }
    split; [|done]. rewrite Hec. unfold cells_with.
    rewrite (filter_agree _ (λ _, True)).
    + induction (all_coords g) as [|a l IH]; [done|].
      by rewrite filter_cons_True, IH.
    + intros c Hc%elem_of_all_coords. split; [done|]. intros _. by apply Hyes.
  - intros Hfa c Hc Hh. destruct (Hal c 1 Hc Hh) as (_ & _ & H1 & _).
    by apply (Qle_not_lt _ _ Hfa), H1.
  - intros Hfa c Hc Hh. destruct (Hal c 2 Hc Hh) as (_ & _ & _ & H2).
    by apply (Qle_not_lt _ _ Hfa), H2.
Qed.

Lemma initialize_grid_edge_fractions_witness :
  initialize_grid 2 0 (1 # 2) (rng_of checker_tape) =
  (Ok (checker_grid, []), advance 8 (rng_of checker_tape)) ∧
  (((0 : Q) <= 0)%Q →
   ([] : list coord) = [] ∧ ∀ c, in_range checker_grid c → ¬ holds checker_grid 0 c) ∧
  ((1 <= 0)%Q →
   [] = all_coords checker_grid ∧
   ∀ c, in_range checker_grid c → holds checker_grid 0 c) ∧
  ((1 # 2 <= 0)%Q → ∀ c, in_range checker_grid c → ¬ holds checker_grid 1 c) ∧
  ((1 <= 1 # 2)%Q → ∀ c, in_range checker_grid c → ¬ holds checker_grid 2 c).
Proof.
  assert (initialize_grid 2 0 (1 # 2) (rng_of checker_tape) =
          (Ok (checker_grid, []), advance 8 (rng_of checker_tape))) as H1
    by reflexivity.
  split; [done|].
  exact (initialize_grid_edge_fractions 2 0 (1 # 2) (rng_of checker_tape)
           checker_grid [] (advance 8 (rng_of checker_tape)) H1).
Defined.

(** ** update on any heap *)

Lemma shape_alter_insert (g : list (list Z)) (i j : nat) (v : Z) :
  shape0 (alter (<[j:=v]>) i g) = shape0 g ∧
  shape1 (alter (<[j:=v]>) i g) = shape1 g.
Proof.
  split.
  - unfold shape0. by rewrite length_alter.
  - destruct g as [|r g]; [done|]. destruct i; simpl; [|done].
    by rewrite length_insert.
Qed.

Lemma grid_set_shape g x y v g' :
  grid_set g x y v = Ok g' → shape0 g' = shape0 g ∧ shape1 g' = shape1 g.
Proof.
  unfold grid_set. destruct (norm_index x _); [|done].
  destruct (norm_index y _); [|done]. cbn [res_bind]. intros [= <-].
  apply shape_alter_insert.
Qed.

Lemma frame_refl h : frame h h.
Proof. by repeat split. Qed.

Lemma frame_trans h1 h2 h3 : frame h1 h2 → frame h2 h3 → frame h1 h3.
Proof.
  intros (A1 & A2 & A3 & A4) (B1 & B2 & B3 & B4).
  repeat split; congruence.
Qed.

Lemma store_frame x y v h : frame h (store x y v h).2.
Proof.
  unfold store, bind, gets, lift, put_grid, modify.
  destruct (grid_set (grid h) x y v) as [g'|e] eqn:E; simpl;
    [|apply frame_refl].
  destruct (grid_set_shape _ _ _ _ _ E). by repeat split.
Qed.

Lemma relocate_frame x y h : frame h (relocate x y h).2.
Proof.
  unfold relocate, bind at 1, gets. unfold bind at 1, on_rng, randint.
  destruct (Z.leb_spec (Z.of_nat (length (emptycells h))) 0); simpl;
    [by repeat split|].
  unfold bind at 1, lift.
  destruct (list_get _ _) as [new|]; simpl; [|by repeat split].
  unfold bind at 1. unfold list_set.
  destruct (norm_index _ _) as [k|]; simpl; [|by repeat split].
  unfold bind at 1, put_emptycells, modify. unfold bind at 1. simpl.
  unfold bind at 1. simpl.
  set (h1 := {| grid := grid h;
                emptycells := <[k:=(x, y)]> (emptycells h);
                rng := {| tape := tape (rng h); pos := S (pos (rng h)) |} |}).
  assert (frame h h1) as F1
    by (repeat split; simpl; by rewrite ?length_insert).
  destruct (grid_get (grid h) x y) as [old|]; [|done].
  unfold bind.
  pose proof (store_frame new.1 new.2 old h1) as F2.
  destruct (store new.1 new.2 old h1) as [[[]|?] h2]; simpl in *.
  - eapply frame_trans; [by eapply frame_trans|]. apply store_frame.
  - by eapply frame_trans.
Qed.

Lemma update_body_frame size thr was_move i h :
  frame h (update_body size thr was_move i h).2.
Proof.
  turn_cases size thr was_move i h x y Hx Hy E; [rewrite E; apply frame_refl|].
  assert (frame h (with_rng h (advance 2 (rng h)))) as F1 by by repeat split.
  destruct (is_satisfied x y (grid h) thr) as [[|]|e]; rewrite E; try done.
  pose proof (relocate_frame x y (with_rng h (advance 2 (rng h)))) as F2.
  destruct (relocate x y _) as [[[]|?] h2]; simpl in *;
    by eapply frame_trans.
Qed.

Lemma update_keeps_frame size thr agents_per_step h :
  frame h (update size thr agents_per_step h).2.
Proof.
  unfold update.
  apply (for_M_state_inv (frame h) (range agents_per_step)
           (update_body size thr)); [|apply frame_refl].
  intros b a s Hs. eapply frame_trans; [exact Hs|apply update_body_frame].
Qed.

(** X5: whatever the heap and the parameters, and whether it returns or
    raises, a call of [update] leaves the shape of the grid, the number of
    entries of the index and the random tape as they were. *)
Theorem update_keeps_shape (size : Z) (similarity_threshold : Q)
    (agents_per_step : Z) (h : Heap) :
  let h' := (update size similarity_threshold agents_per_step h).2 in
  shape0 (grid h') = shape0 (grid h) ∧
  shape1 (grid h') = shape1 (grid h) ∧
  length (emptycells h') = length (emptycells h) ∧
  tape (rng h') = tape (rng h).
Proof. apply update_keeps_frame. Qed.

(** ** update on a well-formed heap *)

(** One turn on a well-formed heap with a free cell, sampling inside the
    grid, returns. *)
Lemma update_body_returns size thr was_move i h :
  wf_heap h → fits (grid h) size → emptycells h ≠ [] →
  ∃ b h', update_body size thr was_move i h = (Ok b, h').
Proof.
  intros Hwf (Hs & H0 & H1) Hec.
  turn_cases size thr was_move i h x y Hx Hy E; [lia|].
  assert (in_range (grid h) (x, y)) as Hin by (split; simpl; lia).
  destruct (is_satisfied_returns (grid h) x y thr) as [b Hb];
    [by destruct Hwf..|done|].
  rewrite Hb in E. destruct b; [eauto|].
  destruct (is_satisfied_false _ _ _ _ Hb) as (agent & f & Hget & Hne & _).
  destruct h as [g ec r]. simpl in *. unfold with_rng in E. simpl in E.
  destruct (relocate_moves g ec (advance 2 r) x y agent) as
    (k & new & _ & Hk & Hnin & Hn0 & Hdiff & Hrel);
    [by apply (wf_heap_with_rng _ (advance 2 r)) in Hwf|done..|].
  rewrite Hrel in E. eauto.
Qed.

(** The flag of a turn: [True] stays [True], and a turn that leaves the
    flag [False] changed neither the grid nor the index. *)
Lemma update_body_flag size thr was_move i h b h' :
  update_body size thr was_move i h = (Ok b, h') →
  (was_move = true → b = true) ∧
  (b = false → grid h' = grid h ∧ emptycells h' = emptycells h).
Proof.
  turn_cases size thr was_move i h x y Hx Hy E; [congruence|].
  destruct (is_satisfied x y (grid h) thr) as [[|]|e]; rewrite E.
  - intros [= <- <-]. by split.
  - destruct (relocate x y _) as [[[]|?] h2]; [|done].
    intros [= <- <-]. by split.
  - done.
Qed.

Lemma update_loop_flag size thr (l : list Z) was_move h h' :
  for_M l (update_body size thr) was_move h = (Ok false, h') →
  was_move = false ∧ grid h' = grid h ∧ emptycells h' = emptycells h.
Proof.
  revert was_move h. induction l as [|i l IH]; intros b h.
  - by intros [= -> <-].
  - cbn [for_M]. unfold bind.
    destruct (update_body size thr b i h) as [[b1|e] h1] eqn:E; [|done].
    intros Hrest. destruct (IH b1 h1 Hrest) as (-> & Hg & He).
    destruct (update_body_flag _ _ _ _ _ _ _ E) as [Hmono Hsame].
    destruct (Hsame eq_refl) as [Hg1 He1].
    split; [by destruct b; [discriminate (Hmono eq_refl)|]|]. split; congruence.
Qed.

(** X6: a call of [update] on a well-formed heap conserves the population:
    the grid it leaves, returning or raising, has as many cells of type A,
    of type B and empty as the grid it was given, and the heap is
    well-formed again. *)
Theorem update_conserves_population (size : Z) (similarity_threshold : Q)
    (agents_per_step : Z) (h : Heap) :
  wf_heap h →
  let h' := (update size similarity_threshold agents_per_step h).2 in
  wf_heap h' ∧ ∀ v, count_cells (grid h') v = count_cells (grid h) v.
Proof. apply update_wf_counts. Qed.

Lemma update_conserves_population_witness :
  wf_heap demo_heap ∧
  let h' := (update 3 (3 # 5) 4 demo_heap).2 in
  wf_heap h' ∧ ∀ v, count_cells (grid h') v = count_cells (grid demo_heap) v.
Proof.
  assert (wf_heap demo_heap) as H1 by exact (reachable_wf _ demo_heap_reachable).
  split; [done|].
  exact (update_conserves_population 3 (3 # 5) 4 demo_heap H1).
Defined.

(** X7: when [update] returns [was_move = False], the grid and the index
    are exactly as they were given. *)
Theorem update_false_unchanged (size : Z) (similarity_threshold : Q)
    (agents_per_step : Z) (h h' : Heap) :
  update size similarity_threshold agents_per_step h = (Ok false, h') →
  grid h' = grid h ∧ emptycells h' = emptycells h.
Proof.
  unfold update. intros Hrun.
  by destruct (update_loop_flag _ _ _ _ _ _ Hrun) as (_ & Hg & He).
Qed.

Lemma update_false_unchanged_witness :
  update 3 (1 # 4) 1 demo_heap = (Ok false, with_rng demo_heap (advance 18 (rng_of demo_tape))) ∧
  grid (with_rng demo_heap (advance 18 (rng_of demo_tape))) = grid demo_heap ∧
  emptycells (with_rng demo_heap (advance 18 (rng_of demo_tape))) =
  emptycells demo_heap.
Proof.
  assert (update 3 (1 # 4) 1 demo_heap =
          (Ok false, with_rng demo_heap (advance 18 (rng_of demo_tape)))) as H1
    by reflexivity.
  split; [done|].
  exact (update_false_unchanged 3 (1 # 4) 1 demo_heap _ H1).
Defined.

(** X8: on a well-formed heap whose index is not empty, with a [size]
    that samples inside the grid, [update] never raises. *)
Theorem update_returns (size : Z) (similarity_threshold : Q)
    (agents_per_step : Z) (h : Heap) :
  wf_heap h → fits (grid h) size → emptycells h ≠ [] →
  ∃ was_move h',
    update size similarity_threshold agents_per_step h = (Ok was_move, h').
Proof.
  intros Hwf Hfit Hec. unfold update.
  set (I := λ s : Heap, wf_heap s ∧ frame h s).
  destruct (for_M_run_inv (λ _ _ s, I s) (range agents_per_step)
              (update_body size similarity_threshold)) with (b := false) (s := h)
    as (b & h' & Hrun & _); [|by split; [|apply frame_refl]|by exists b, h'].
  intros pre a post b s _ [Hs Hf].
  destruct Hf as (F0 & F1 & F2 & F3).
  destruct (update_body_returns size similarity_threshold b a s) as (b' & s' & E).
  - done.
  - unfold fits in *. by rewrite F0, F1.
  - intros Hnil. apply Hec. apply length_zero_iff_nil.
    by rewrite <- F2, Hnil.
  - exists b', s'. split; [done|].
    pose proof (update_body_wf size similarity_threshold b a s Hs) as Hwf'.
    pose proof (update_body_frame size similarity_threshold b a s) as Hf'.
    rewrite E in Hwf', Hf'. split; [done|].
    eapply frame_trans; [|exact Hf']. by repeat split.
Qed.

Lemma update_returns_witness :
  (wf_heap demo_heap ∧ fits (grid demo_heap) 3 ∧ emptycells demo_heap ≠ []) ∧
  ∃ was_move h', update 3 (3 # 5) 7 demo_heap = (Ok was_move, h').
Proof.
  assert (wf_heap demo_heap) as H1 by exact (reachable_wf _ demo_heap_reachable).
  assert (fits (grid demo_heap) 3) as H2 by compute_done.
  assert (emptycells demo_heap ≠ []) as H3 by discriminate.
  split; [done|].
  exact (update_returns 3 (3 # 5) 7 demo_heap H1 H2 H3).
Defined.

(** X9: [update] with [size <= 0] and at least one turn raises
    [ValueError] on its first draw and changes nothing, not even the
    random state. *)
Theorem update_rejects_size (size : Z) (similarity_threshold : Q)
    (agents_per_step : Z) (h : Heap) :
  size ≤ 0 → 0 < agents_per_step →
  update size similarity_threshold agents_per_step h = (Raise ValueError, h).
Proof.
  intros Hs Hk. unfold update, range. rewrite seqZ_cons by done.
  cbn [for_M]. unfold bind.
  turn_cases size similarity_threshold false 0 h x y Hx Hy E; [|lia].
  by rewrite E.
Qed.

Lemma update_rejects_size_witness :
  (0 ≤ 0 ∧ 0 < 5) ∧
  update 0 (3 # 5) 5 demo_heap = (Raise ValueError, demo_heap).
Proof.
  assert (0 ≤ 0) as H1 by lia. assert (0 < 5) as H2 by lia.
  split; [done|].
  exact (update_rejects_size 0 (3 # 5) 5 demo_heap H1 H2).
Defined.

(** ** Coordinates outside the grid and below zero *)

Lemma norm_index_mod i n :
  - n ≤ i < n → norm_index i n = norm_index (i mod n) n.
Proof.
  intros Hi. unfold norm_index.
  assert (0 < n) as Hn by lia.
  pose proof (Z.mod_pos_bound i n Hn) as Hm.
  destruct (Z.leb_spec 0 i), (Z.ltb_spec i n); try lia; cbn [andb].
  - rewrite Z.mod_small by lia.
    destruct (Z.leb_spec 0 i), (Z.ltb_spec i n); try lia. done.
  - destruct (Z.leb_spec (- n) i), (Z.ltb_spec i 0); try lia. cbn [andb].
    destruct (Z.leb_spec 0 (i mod n)), (Z.ltb_spec (i mod n) n); try lia.
    cbn [andb]. do 2 f_equal.
    rewrite <- (Z.mod_small (i + n) n) by lia.
    by rewrite <- Zplus_mod_idemp_r, Z_mod_same_full, Z.add_0_r.
Qed.

Lemma norm_index_outside i n :
  i < - n ∨ n ≤ i → norm_index i n = Raise IndexError.
Proof.
  intros Hi. unfold norm_index.
  destruct (Z.leb_spec 0 i), (Z.ltb_spec i n), (Z.leb_spec (- n) i),
    (Z.ltb_spec i 0); try lia; done.
Qed.

Lemma for_res_ext {A B} (l : list A) (body body' : B → A → res B) b :
  (∀ b a, body b a = body' b a) → for_res l body b = for_res l body' b.
Proof.
  intros H. revert b. induction l as [|a l IH]; intros b; [done|].
  cbn [for_res]. rewrite H. destruct (body' b a); [|done]. apply IH.
Qed.

(** X10: the index range of [fraction_neighbors_same]. A coordinate
    outside [[-shape, shape)] on either axis raises [IndexError]; inside,
    a negative coordinate names the cell counted from the end, and the
    result is that of the coordinate reduced modulo the shape. *)
Theorem fraction_neighbors_same_index (g : list (list Z)) (x y : Z) :
  (x < - shape0 g ∨ shape0 g ≤ x ∨ y < - shape1 g ∨ shape1 g ≤ y →
   fraction_neighbors_same x y g = Raise IndexError) ∧
  (- shape0 g ≤ x < shape0 g → - shape1 g ≤ y < shape1 g →
   fraction_neighbors_same x y g =
   fraction_neighbors_same (x mod shape0 g) (y mod shape1 g) g).
Proof.
  split.
  - intros Hout. unfold fraction_neighbors_same, grid_get.
    destruct (decide (x < - shape0 g ∨ shape0 g ≤ x)) as [Hx|Hx].
    + by rewrite norm_index_outside.
    + rewrite (norm_index_outside y) by lia.
      rewrite (norm_index_mod x) by lia.
      by rewrite norm_index_in_range by (apply Z.mod_pos_bound; lia).
  - intros Hx Hy.
    assert (grid_get g x y = grid_get g (x mod shape0 g) (y mod shape1 g))
      as Hget.
    { unfold grid_get. by rewrite <- !norm_index_mod. }
    unfold fraction_neighbors_same. rewrite <- Hget.
    destruct (grid_get g x y) as [agent|]; [|done]. cbn [res_bind].
    destruct (agent =? 0); [done|].
    rewrite (for_res_ext directions
               (neighbor_step g (x mod shape0 g) (y mod shape1 g) agent)
               (neighbor_step g x y agent)); [done|].
    intros [s t] [dx dy]. unfold neighbor_step, py_mod.
    by rewrite !Zplus_mod_idemp_l.
Qed.

Lemma fraction_neighbors_same_index_witness :
  (- shape0 demo_grid ≤ -3 < shape0 demo_grid ∧
   - shape1 demo_grid ≤ -1 < shape1 demo_grid) ∧
  fraction_neighbors_same (-3) (-1) demo_grid =
  fraction_neighbors_same (-3 mod shape0 demo_grid) (-1 mod shape1 demo_grid)
    demo_grid.
Proof.
  assert (- shape0 demo_grid ≤ -3 < shape0 demo_grid) as H1 by compute_done.
  assert (- shape1 demo_grid ≤ -1 < shape1 demo_grid) as H2 by compute_done.
  split; [done|].
  exact (proj2 (fraction_neighbors_same_index demo_grid (-3) (-1)) H1 H2).
Defined.

(** ** Exchanging the two types *)

Lemma swap_code_facts v w :
  (swap_code v =? 0) = (v =? 0) ∧ (0 <? swap_code v) = (0 <? v) ∧
  (swap_code v =? swap_code w) = (v =? w).
Proof.
  unfold swap_code.
  destruct (Z.eqb_spec v 1), (Z.eqb_spec v 2), (Z.eqb_spec w 1),
    (Z.eqb_spec w 2); subst; try done;
    repeat (match goal with
            | |- context [?a =? ?b] => destruct (Z.eqb_spec a b)
            | |- context [?a <? ?b] => destruct (Z.ltb_spec a b)
            end); try done; lia.
Qed.

Lemma shape_swap_types g :
  shape0 (swap_types g) = shape0 g ∧ shape1 (swap_types g) = shape1 g.
Proof.
  unfold swap_types, shape0, shape1. split; [by rewrite length_fmap|].
  destruct g as [|r g]; [done|]. simpl. by rewrite length_fmap.
Qed.

Lemma grid_get_swap_types g x y :
  grid_get (swap_types g) x y =
  match grid_get g x y with
  | Ok v => Ok (swap_code v)
  | Raise e => Raise e
  end.
Proof.
  unfold grid_get. destruct (shape_swap_types g) as [-> ->].
  destruct (norm_index x _) as [i|]; [|done].
  destruct (norm_index y _) as [j|]; [|done]. cbn [res_bind].
  unfold swap_types. rewrite list_lookup_fmap.
  destruct (g !! i) as [r|]; simpl; [|done]. rewrite list_lookup_fmap.
  by destruct (r !! j).
Qed.

Lemma fraction_neighbors_same_swap g x y :
  fraction_neighbors_same x y (swap_types g) = fraction_neighbors_same x y g.
Proof.
  unfold fraction_neighbors_same. rewrite grid_get_swap_types.
  destruct (grid_get g x y) as [agent|]; [|done]. cbn [res_bind].
  destruct (swap_code_facts agent agent) as (-> & _ & _).
  destruct (agent =? 0); [done|].
  rewrite (for_res_ext directions
             (neighbor_step (swap_types g) x y (swap_code agent))
             (neighbor_step g x y agent)); [done|].
  intros [s t] [dx dy]. unfold neighbor_step.
  destruct (shape_swap_types g) as [-> ->].
  destruct (py_mod _ _); [|done]. destruct (py_mod _ _); [|done].
  cbn [res_bind]. rewrite grid_get_swap_types.
  destruct (grid_get g _ _) as [v|]; [|done]. cbn [res_bind].
  by destruct (swap_code_facts v agent) as (_ & -> & ->).
Qed.

(** X11: the model does not tell the two types apart. Exchanging type A
    and type B in every cell changes no similarity fraction, no
    satisfaction, and not the average. *)
Theorem swap_types_invariant (g : list (list Z)) :
  (∀ x y, fraction_neighbors_same x y (swap_types g) =
          fraction_neighbors_same x y g) ∧
  (∀ x y thr, is_satisfied x y (swap_types g) thr = is_satisfied x y g thr) ∧
  average_neighbor_similarity (swap_types g) = average_neighbor_similarity g.
Proof.
  split; [apply fraction_neighbors_same_swap|]. split.
  - intros x y thr. unfold is_satisfied.
    by rewrite fraction_neighbors_same_swap.
  - unfold average_neighbor_similarity.
    destruct (shape_swap_types g) as [-> ->]. cbv zeta.
    rewrite (for_res_ext (range (shape0 g))
               (λ l i, for_res (range (shape1 g))
                         (collect_cell (swap_types g) i) l)
               (λ l i, for_res (range (shape1 g)) (collect_cell g i) l));
      [done|].
    intros l i. apply for_res_ext. intros l' j. unfold collect_cell.
    by rewrite fraction_neighbors_same_swap.
Qed.

(** ** Thresholds *)

(** X12: satisfaction is monotone in the threshold: an agent satisfied at
    a threshold is satisfied at every lower one. *)
Theorem is_satisfied_monotone (g : list (list Z)) (x y : Z) (t t' : Q) :
  (t' <= t)%Q →
  is_satisfied x y g t = Ok true → is_satisfied x y g t' = Ok true.
Proof.
  intros Hle. unfold is_satisfied.
  destruct (fraction_neighbors_same x y g) as [[f|]|e]; cbn [res_bind];
    [|done..].
  intros [= Ht]. f_equal. apply Qle_bool_iff in Ht. apply Qle_bool_iff.
  by eapply Qle_trans.
Qed.

Lemma is_satisfied_monotone_witness :
  ((1 # 5 <= 1 # 4)%Q ∧ is_satisfied 0 0 demo_grid (1 # 4) = Ok true) ∧
  is_satisfied 0 0 demo_grid (1 # 5) = Ok true.
Proof.
  assert ((1 # 5 <= 1 # 4)%Q) as H1 by (unfold Qle; simpl; lia).
  assert (is_satisfied 0 0 demo_grid (1 # 4) = Ok true) as H2 by reflexivity.
  split; [done|].
  exact (is_satisfied_monotone demo_grid 0 0 (1 # 4) (1 # 5) H1 H2).
Defined.

(** X13: with a threshold above 1 every agent with an occupied neighbour
    is unsatisfied: at an in-range cell [is_satisfied] returns [False]
    exactly when the similarity is defined, and [True] only for an empty
    cell or a cell with no occupied neighbour. *)
Theorem threshold_above_one (g : list (list Z)) (x y : Z) (thr : Q) :
  rect g → valid_codes g → in_range g (x, y) → (1 < thr)%Q →
  (fraction_neighbors_same x y g = Ok None ∧
   is_satisfied x y g thr = Ok true) ∨
  (∃ f, fraction_neighbors_same x y g = Ok (Some f) ∧
        is_satisfied x y g thr = Ok false).
Proof.
  intros Hr Hv Hin Hthr.
  destruct (fraction_neighbors_same_total g x y Hr Hv Hin)
    as (agent & vs & _ & _ & _ & Hf).
  unfold is_satisfied. rewrite Hf.
  case_decide; [by left|]. case_decide as Hocc; [by left|]. right.
  eexists. split; [done|]. cbn [res_bind]. f_equal.
  apply not_true_iff_false. intros Hle%Qle_bool_iff.
  pose proof (count_bounds agent vs) as Hb.
  destruct (Qfraction_bounds (count_same agent vs) (count_occupied vs))
    as [_ H1]; [lia..|].
  apply (Qlt_not_le _ _ Hthr). by eapply Qle_trans.
Qed.

Lemma threshold_above_one_witness :
  (rect demo_grid ∧ valid_codes demo_grid ∧ in_range demo_grid (1, 1) ∧
   (1 < 101 # 100)%Q) ∧
  ((fraction_neighbors_same 1 1 demo_grid = Ok None ∧
    is_satisfied 1 1 demo_grid (101 # 100) = Ok true) ∨
   (∃ f, fraction_neighbors_same 1 1 demo_grid = Ok (Some f) ∧
         is_satisfied 1 1 demo_grid (101 # 100) = Ok false)).
Proof.
  assert (rect demo_grid) as H1 by compute_done.
  assert (valid_codes demo_grid) as H2 by compute_done.
  assert (in_range demo_grid (1, 1)) as H3 by compute_done.
  assert ((1 < 101 # 100)%Q) as H4 by (unfold Qlt; simpl; lia).
  split; [done|].
  exact (threshold_above_one demo_grid 1 1 (101 # 100) H1 H2 H3 H4).
Defined.

(** ** The range of the metric *)

Lemma inject_Z_succ (n : nat) :
  (inject_Z (Z.of_nat (S n)) == 1 + inject_Z (Z.of_nat n))%Q.
Proof. unfold Qeq, Qplus, inject_Z. cbn [Qnum Qden]. lia. Qed.

Lemma Qsum_bounds (l : list Q) :
  Forall (λ q, (0 <= q)%Q ∧ (q <= 1)%Q) l →
  (0 <= Qsum l)%Q ∧ (Qsum l <= inject_Z (Z.of_nat (length l)))%Q.
Proof.
  induction 1 as [|q l [Hq0 Hq1] _ [IH0 IH1]].
  - split; apply Qle_refl.
  - cbn [Qsum foldr length]. fold (Qsum l). split.
    + rewrite <- (Qplus_0_l 0). by apply Qplus_le_compat.
    + rewrite inject_Z_succ. by apply Qplus_le_compat.
Qed.

Lemma Qsum_all_one (l : list Q) :
  Forall (λ q, (q == 1)%Q) l → (Qsum l == inject_Z (Z.of_nat (length l)))%Q.
Proof.
  induction 1 as [|q l Hq _ IH]; [reflexivity|].
  cbn [Qsum foldr length]. fold (Qsum l).
  by rewrite inject_Z_succ, Hq, IH.
Qed.

Lemma inject_Z_length_pos {A} (l : list A) :
  l ≠ [] → (0 < inject_Z (Z.of_nat (length l)))%Q.
Proof.
  intros Hne. destruct l; [done|]. unfold Qlt, inject_Z. cbn [Qnum Qden length].
  lia.
Qed.

Lemma Forall_omap_local {A B} (f : A → option B) (P : A → Prop)
    (Q : B → Prop) (l : list A) :
  Forall P l → (∀ a b, P a → f a = Some b → Q b) → Forall Q (omap f l).
Proof.
  intros HP Hf. induction HP as [|a l Ha _ IH]; [constructor|].
  cbn [omap list_omap]. destruct (f a) as [b|] eqn:E; [|done].
  constructor; [by eapply Hf|done].
Qed.

Lemma defined_values_Forall g (Q : Q → Prop) :
  (∀ c q, in_range g c → defined_at g c = Some q → Q q) →
  Forall Q (defined_values g).
Proof.
  intros H. unfold defined_values.
  apply (Forall_omap_local _ (in_range g)); [|done].
  apply Forall_forall. intros c. by rewrite elem_of_all_coords.
Qed.

Lemma defined_at_bounds g c q :
  rect g → valid_codes g → in_range g c → defined_at g c = Some q →
  (0 <= q)%Q ∧ (q <= 1)%Q.
Proof.
  intros Hr Hv Hin. destruct c as [x y]. unfold defined_at. cbn [fst snd].
  destruct (fraction_neighbors_same_total g x y Hr Hv Hin)
    as (agent & vs & _ & _ & _ & ->).
  case_decide; [done|]. case_decide as Hocc; [done|]. intros [= <-].
  pose proof (count_bounds agent vs).
  apply Qfraction_bounds; lia.
Qed.

(** The metric on a rectangular grid of valid codes. *)
Lemma average_range g :
  rect g → valid_codes g →
  average_neighbor_similarity g = Ok NaN ∨
  ∃ q, average_neighbor_similarity g = Ok (Num q) ∧ (0 <= q)%Q ∧ (q <= 1)%Q.
Proof.
  intros Hr Hv.
  rewrite average_neighbor_similarity_unfold
    by by apply fraction_neighbors_same_everywhere.
  assert (Forall (λ q, (0 <= q)%Q ∧ (q <= 1)%Q) (defined_values g)) as HF.
  { apply defined_values_Forall. intros c q. by apply defined_at_bounds. }
  destruct (defined_values g) as [|q0 l]; [by left|right].
  unfold np_mean. eexists. split; [done|].
  destruct (Qsum_bounds _ HF) as [H0 H1].
  assert (q0 :: l ≠ []) as Hne by done.
  pose proof (inject_Z_length_pos _ Hne) as Hpos. split.
  - apply Qle_shift_div_l; [done|]. by rewrite Qmult_0_l.
  - apply Qle_shift_div_r; [done|]. by rewrite Qmult_1_l.
Qed.

(** X14: on a rectangular grid of valid codes
    [average_neighbor_similarity] never raises, and its result is
    not-a-number or a number between 0 and 1. *)
Theorem average_between_zero_and_one (g : list (list Z)) :
  rect g → valid_codes g →
  average_neighbor_similarity g = Ok NaN ∨
  ∃ q, average_neighbor_similarity g = Ok (Num q) ∧ (0 <= q)%Q ∧ (q <= 1)%Q.
Proof. apply average_range. Qed.

Lemma average_between_zero_and_one_witness :
  (rect demo_grid ∧ valid_codes demo_grid) ∧
  (average_neighbor_similarity demo_grid = Ok NaN ∨
   ∃ q, average_neighbor_similarity demo_grid = Ok (Num q) ∧
        (0 <= q)%Q ∧ (q <= 1)%Q).
Proof.
  assert (rect demo_grid) as H1 by compute_done.
  assert (valid_codes demo_grid) as H2 by compute_done.
  split; [done|].
  exact (average_between_zero_and_one demo_grid H1 H2).
Defined.

(** ** A grid with one type of agent *)

Lemma count_same_all agent vs :
  Forall (λ v, v = 0 ∨ v = agent) vs →
  count_same agent vs = count_occupied vs.
Proof.
  induction 1 as [|v vs Hv _ IH].
  - done.
  - rewrite count_same_cons, count_occupied_cons, IH.
    repeat case_decide; try done; exfalso; intuition congruence.
Qed.

Lemma reads_Forall g (P : Z → Prop) cs vs :
  (∀ c v, in_range g c → holds g v c → P v) →
  Forall2 (reads g) cs vs → Forall P vs.
Proof.
  intros HP HF. induction HF as [|c v cs vs [Hc Hv] _ IH]; constructor;
    [by eapply HP|done].
Qed.

Lemma Qdiv_same (k : Z) : k ≠ 0 → (inject_Z k / inject_Z k == 1)%Q.
Proof.
  intros Hk. apply Qmult_inv_r. unfold Qeq, inject_Z. cbn [Qnum Qden]. lia.
Qed.

Lemma single_type_defined_one g a c q :
  rect g → valid_codes g →
  (∀ c v, in_range g c → holds g v c → v = 0 ∨ v = a) →
  in_range g c → defined_at g c = Some q → (q == 1)%Q.
Proof.
  intros Hr Hv Hone Hin. destruct c as [x y]. unfold defined_at.
  cbn [fst snd].
  destruct (fraction_neighbors_same_total g x y Hr Hv Hin)
    as (agent & vs & Hget & _ & Hreads & ->).
  case_decide as Hag; [done|]. case_decide as Hocc; [done|]. intros [= <-].
  assert (agent = a) as ->.
  { destruct (Hone (x, y) agent Hin Hget); [done|done]. }
  rewrite count_same_all; [by apply Qdiv_same|].
  by eapply reads_Forall.
Qed.

Lemma average_single_type g a :
  rect g → valid_codes g →
  (∀ c v, in_range g c → holds g v c → v = 0 ∨ v = a) →
  defined_values g ≠ [] →
  ∃ q, average_neighbor_similarity g = Ok (Num q) ∧ (q == 1)%Q.
Proof.
  intros Hr Hv Hone Hne.
  rewrite average_neighbor_similarity_unfold
    by by apply fraction_neighbors_same_everywhere.
  assert (Forall (λ q, (q == 1)%Q) (defined_values g)) as HF.
  { apply defined_values_Forall. intros c q.
    by apply (single_type_defined_one g a). }
  pose proof (inject_Z_length_pos _ Hne) as Hpos.
  pose proof (Qsum_all_one _ HF) as Hsum.
  destruct (defined_values g) as [|q0 l]; [done|].
  unfold np_mean. eexists. split; [done|]. rewrite Hsum.
  apply Qmult_inv_r. intros H0. rewrite H0 in Hpos. by apply Qlt_irrefl in Hpos.
Qed.

(** X15: on a grid holding agents of one type only, with at least one
    agent that has a neighbour, the average similarity is exactly 1. *)
Theorem average_of_one_type (g : list (list Z)) (a : Z) :
  rect g → valid_codes g →
  (∀ c v, in_range g c → holds g v c → v = 0 ∨ v = a) →
  defined_values g ≠ [] →
  ∃ q, average_neighbor_similarity g = Ok (Num q) ∧ (q == 1)%Q.
Proof. apply average_single_type. Qed.

Lemma average_of_one_type_witness :
  (rect [[2; 0]; [2; 2]] ∧ valid_codes [[2; 0]; [2; 2]] ∧
   (∀ c v, in_range [[2; 0]; [2; 2]] c → holds [[2; 0]; [2; 2]] v c →
           v = 0 ∨ v = 2) ∧
   defined_values [[2; 0]; [2; 2]] ≠ []) ∧
  ∃ q, average_neighbor_similarity [[2; 0]; [2; 2]] = Ok (Num q) ∧ (q == 1)%Q.
Proof.
  assert (rect [[2; 0]; [2; 2]]) as H1 by compute_done.
  assert (valid_codes [[2; 0]; [2; 2]]) as H2 by compute_done.
  assert (∀ c v, in_range [[2; 0]; [2; 2]] c → holds [[2; 0]; [2; 2]] v c →
                 v = 0 ∨ v = 2) as H3.
  { intros [x y] v [Hx Hy]. unfold shape0, shape1 in Hx, Hy. simpl in Hx, Hy.
    assert (x = 0 ∨ x = 1) as [-> | ->] by lia;
      assert (y = 0 ∨ y = 1) as [-> | ->] by lia;
      intros [= <-]; auto. }
  assert (defined_values [[2; 0]; [2; 2]] ≠ []) as H4
    by (vm_compute; discriminate).
  split; [done|].
  exact (average_of_one_type [[2; 0]; [2; 2]] 2 H1 H2 H3 H4).
Defined.

Lemma omap_nonempty {A B} (f : A → option B) (l : list A) a b :
  a ∈ l → f a = Some b → omap f l ≠ [].
Proof.
  induction 1 as [a l|a a' l _ IH]; intros Hf; cbn [omap list_omap].
  - by rewrite Hf.
  - destruct (f a'); [done|by apply IH].
Qed.

(** A grid filled with one agent type has a defined similarity at every
    cell. *)
Lemma full_grid_defined g a :
  rect g → valid_codes g → a ≠ 0 →
  (∀ c, in_range g c → holds g a c) →
  0 < shape0 g → 0 < shape1 g → defined_values g ≠ [].
Proof.
  intros Hr Hv Ha Hfull H0 H1.
  assert (in_range g (0, 0)) as Hin by (split; simpl; lia).
  destruct (fraction_neighbors_same_total g 0 0 Hr Hv Hin)
    as (agent & vs & Hget & _ & Hreads & Hf).
  assert (agent = a) as ->.
  { pose proof (Hfull (0, 0) Hin) as H. unfold holds in H. simpl in H.
    congruence. }
  assert (Forall (λ v, v = a) vs) as Hvs.
  { eapply reads_Forall; [|exact Hreads]. intros c v Hc Hh.
    pose proof (Hfull c Hc) as H. unfold holds in *. congruence. }
  assert (count_occupied vs ≠ 0) as Hocc.
  { intros Hz%count_occupied_zero.
    assert (length vs = 8%nat) as Hlen
      by by rewrite <- (Forall2_length _ _ _ Hreads).
    destruct vs as [|v vs]; [done|].
    apply Forall_cons_1 in Hvs as [-> _]. by apply Forall_cons_1 in Hz as [? _]. }
  rewrite !decide_False in Hf by done.
  unfold defined_values.
  eapply (omap_nonempty _ _ (0, 0)); [by apply elem_of_all_coords|].
  unfold defined_at. cbn [fst snd]. by rewrite Hf.
Qed.

(** X16: [initialize_grid] with [fraction_empty <= 0] and
    [fraction_A >= 1] on a [size >= 1] returns a grid filled with type A
    and an empty index, and the average similarity of that grid is
    exactly 1. *)
Theorem initialize_all_type_A (size : Z) (fraction_empty fraction_A : Q)
    (r : RandomState) (g : list (list Z)) (ec : list coord)
    (r' : RandomState) :
  initialize_grid size fraction_empty fraction_A r = (Ok (g, ec), r') →
  1 ≤ size → (fraction_empty <= 0)%Q → (1 <= fraction_A)%Q →
  ec = [] ∧ (∀ c, in_range g c → holds g 1 c) ∧
  ∃ q, average_neighbor_similarity g = Ok (Num q) ∧ (q == 1)%Q.
Proof.
  intros Hinit Hsize Hfe Hfa.
  destruct (initialize_grid_inv _ _ _ _ _ _ _ Hinit)
    as (Hr & Hv & H0 & H1 & _ & Hidx).
  destruct (initialize_grid_facts _ _ _ _ _ _ _ Hinit)
    as (_ & _ & _ & Hec & _ & _ & Hcodes).
  assert (∀ c, in_range g c → holds g 1 c) as Hfull.
  { intros c Hc. destruct (Hcodes c Hc) as (v & Hh & A0 & _ & _ & A2).
    pose proof (grid_get_valid g c v Hv Hc Hh) as [->|[->| ->]].
    - by destruct (Qle_not_lt _ _ Hfe (A0 eq_refl)).
    - done.
    - by destruct (Qle_not_lt _ _ Hfa (A2 eq_refl)). }
  split; [|split; [done|]].
  - destruct ec as [|c ec]; [done|].
    assert (c ∈ c :: ec) as [Hc Hh]%Hidx by left.
    pose proof (Hfull c Hc) as H. unfold holds in *. congruence.
  - apply (average_single_type g 1); [done..| |].
    + intros c v Hc Hh. pose proof (Hfull c Hc) as H. unfold holds in *.
      right. congruence.
    + apply (full_grid_defined g 1); [done..|lia|lia].
Qed.

Lemma initialize_all_type_A_witness :
  (initialize_grid 2 0 1 (rng_of []) =
   (Ok ([[1; 1]; [1; 1]], []), advance 8 (rng_of [])) ∧
   1 ≤ 2 ∧ ((0 : Q) <= 0)%Q ∧ ((1 : Q) <= 1)%Q) ∧
  ([] : list coord) = [] ∧
  (∀ c, in_range [[1; 1]; [1; 1]] c → holds [[1; 1]; [1; 1]] 1 c) ∧
  ∃ q, average_neighbor_similarity [[1; 1]; [1; 1]] = Ok (Num q) ∧ (q == 1)%Q.
Proof.
  assert (initialize_grid 2 0 1 (rng_of []) =
          (Ok ([[1; 1]; [1; 1]], []), advance 8 (rng_of []))) as H1
    by reflexivity.
  assert (1 ≤ 2) as H2 by lia.
  assert (((0 : Q) <= 0)%Q) as H3 by apply Qle_refl.
  assert (((1 : Q) <= 1)%Q) as H4 by apply Qle_refl.
  split; [done|].
  exact (initialize_all_type_A 2 0 1 (rng_of []) _ _ _ H1 H2 H3 H4).
Defined.

(** ** The driver and the experiment *)

Lemma run_until_stable_wf budget size thr k h :
  wf_heap h →
  let h' := (run_until_stable budget size thr k h).2 in
  wf_heap h' ∧ frame h h' ∧
  ∀ v, count_cells (grid h') v = count_cells (grid h) v.
Proof.
  revert h. induction budget as [|n IH]; intros h Hwf; cbv zeta.
  - simpl. split; [done|]. split; [apply frame_refl|done].
  - cbn [run_until_stable]. unfold bind.
    destruct (update_wf_counts size thr k h Hwf) as [Hwf1 Hc1].
    pose proof (update_keeps_frame size thr k h) as Hf1.
    destruct (update size thr k h) as [[b|e] h1]; simpl in *; [|done].
    destruct b; simpl; [|done].
    destruct (IH h1 Hwf1) as (Hwf2 & Hf2 & Hc2).
    split; [done|]. split; [by eapply frame_trans|].
    intros v. by rewrite Hc2.
Qed.

(** X17: the driver conserves the population. From a well-formed heap,
    whatever the budget and whether it stops at the [break], at the end of
    the budget or on an exception, it leaves a well-formed heap with a grid
    of the same shape and as many cells of each type and empty cells. *)
Theorem run_until_stable_conserves (budget : nat) (size : Z)
    (similarity_threshold : Q) (agents_per_step : Z) (h : Heap) :
  wf_heap h →
  let h' := (run_until_stable budget size similarity_threshold
               agents_per_step h).2 in
  wf_heap h' ∧
  shape0 (grid h') = shape0 (grid h) ∧ shape1 (grid h') = shape1 (grid h) ∧
  ∀ v, count_cells (grid h') v = count_cells (grid h) v.
Proof.
  intros Hwf.
  destruct (run_until_stable_wf budget size similarity_threshold
              agents_per_step h Hwf) as (H1 & (F0 & F1 & _) & H3).
  done.
Qed.

Lemma run_until_stable_conserves_witness :
  wf_heap demo_heap ∧
  let h' := (run_until_stable 100 3 (3 # 5) 2 demo_heap).2 in
  wf_heap h' ∧
  shape0 (grid h') = shape0 (grid demo_heap) ∧
  shape1 (grid h') = shape1 (grid demo_heap) ∧
  ∀ v, count_cells (grid h') v = count_cells (grid demo_heap) v.
Proof.
  assert (wf_heap demo_heap) as H1 by exact (reachable_wf _ demo_heap_reachable).
  split; [done|].
  exact (run_until_stable_conserves 100 3 (3 # 5) 2 demo_heap H1).
Defined.

Lemma initialize_grid_wf size fe fa r g ec r' :
  initialize_grid size fe fa r = (Ok (g, ec), r') →
  wf_heap {| grid := g; emptycells := ec; rng := r' |}.
Proof. intros H. apply reachable_wf. by eapply reachable_init. Qed.




Lemma experiment_point_range size fe fa k thr r v r' :
  experiment_point size fe fa k thr r = (Ok v, r') →
  v = NaN ∨ ∃ q, v = Num q ∧ (0 <= q)%Q ∧ (q <= 1)%Q.
Proof.
  unfold experiment_point.
  destruct (initialize_grid size fe fa r) as [[[g ec]|e] r1] eqn:Hinit;
    [|done].
  pose proof (initialize_grid_wf _ _ _ _ _ _ _ Hinit) as Hwf.
  destruct (run_until_stable_wf 100 size thr k _ Hwf) as ([Hr Hv _ _] & _).
  destruct (run_until_stable 100 size thr k _) as [[[]|e] h]; [|done].
  simpl in Hr, Hv. intros [= Havg <-].
  destruct (average_range (grid h) Hr Hv) as [E|(q & E & Hq)];
    rewrite E in Havg; injection Havg as <-; eauto.
Qed.

(** X19: every similarity the experiment collects is not-a-number or a
    number between 0 and 1, and there is one per threshold, in order. *)
Theorem experiment_values (size : Z) (fraction_empty fraction_A : Q)
    (agents_per_step : Z) (thresholds : list Q) (r : RandomState)
    (similarities : list npfloat) (r' : RandomState) :
  experiment size fraction_empty fraction_A agents_per_step thresholds r =
  (Ok similarities, r') →
  length similarities = length thresholds ∧
  Forall (λ v, v = NaN ∨ ∃ q, v = Num q ∧ (0 <= q)%Q ∧ (q <= 1)%Q)
    similarities.
Proof.
  unfold experiment.
  set (P := λ v : npfloat, v = NaN ∨ ∃ q, v = Num q ∧ (0 <= q)%Q ∧ (q <= 1)%Q).
  set (body := λ (sims : list npfloat) (t : Q),
         (s <- experiment_point size fraction_empty fraction_A
                 agents_per_step t;; ret (sims ++ [s]))%M).
  assert (∀ l acc s, for_M l body acc s = (Ok similarities, r') →
            Forall P acc →
            length similarities = (length acc + length l)%nat ∧
            Forall P similarities) as Hgen.
  { induction l as [|t l IH]; intros acc s.
    - intros [= <- <-] Hacc. split; [simpl; lia|done].
    - cbn [for_M]. unfold bind at 1. unfold body at 1. unfold bind at 1.
      destruct (experiment_point _ _ _ _ t s) as [[v|e] s1] eqn:E; [|done].
      unfold ret at 1. intros Hrest Hacc.
      destruct (IH _ _ Hrest) as [Hlen HP].
      + apply Forall_app. split; [done|]. apply Forall_singleton.
        by eapply experiment_point_range.
      + split; [|done]. rewrite Hlen, length_app. simpl. lia. }
  intros Hrun. by destruct (Hgen _ _ _ Hrun (Forall_nil_2 P)).
Qed.

Lemma experiment_values_witness :
  experiment 3 (1 # 3) (1 # 2) 1 [0%Q] (rng_of demo_tape) =
  (Ok [Num (Qsum (defined_values demo_grid) /
            inject_Z (Z.of_nat (length (defined_values demo_grid))))%Q],
   advance 18 (rng_of demo_tape)) ∧
  length [Num (Qsum (defined_values demo_grid) /
            inject_Z (Z.of_nat (length (defined_values demo_grid))))%Q] =
  length [0%Q] ∧
  Forall (λ v, v = NaN ∨ ∃ q, v = Num q ∧ (0 <= q)%Q ∧ (q <= 1)%Q)
    [Num (Qsum (defined_values demo_grid) /
            inject_Z (Z.of_nat (length (defined_values demo_grid))))%Q].
Proof.
  assert (experiment 3 (1 # 3) (1 # 2) 1 [0%Q] (rng_of demo_tape) =
          (Ok [Num (Qsum (defined_values demo_grid) /
                 inject_Z (Z.of_nat (length (defined_values demo_grid))))%Q],
           advance 18 (rng_of demo_tape))) as H1 by reflexivity.
  split; [done|].
  exact (experiment_values 3 (1 # 3) (1 # 2) 1 [0%Q] (rng_of demo_tape) _ _ H1).
Defined.

(** * The word counter *)

(** The recorded output of the first cell. *)
Example sample_top_words :
  top_words sample_text =
  (λ p : string * Z, (String.list_ascii_of_string p.1, p.2)) <$>
  [("social", 3); ("science", 3); ("data", 2); ("hand", 2); ("the", 2)].
Proof. reflexivity. Qed.

(** ** process_text *)

Lemma lower_char_idem c : lower_char (lower_char c) = lower_char c.
Proof. destruct c as [[] [] [] [] [] [] [] []]; reflexivity. Qed.

Lemma remove_all (ps : str) (text : str) :
  foldl (λ text char, replace_char char text) text ps =
  filter (λ c, c ∉ ps) text.
Proof.
  revert text. induction ps as [|p ps IH]; intros text.
  - simpl. symmetry. induction text as [|c text IHt]; [done|].
    rewrite filter_cons_True by apply not_elem_of_nil. by rewrite IHt.
  - cbn [foldl]. rewrite IH. unfold replace_char.
    rewrite list_filter_filter. apply filter_agree. intros c _.
    rewrite not_elem_of_cons. tauto.
Qed.

Lemma process_text_unfold text :
  process_text text =
  split (filter (λ c, c ∉ punctuation) (lower text)).
Proof. unfold process_text. cbv zeta. by rewrite remove_all. Qed.

Lemma split_from_Forall (P : ascii → Prop) (cur text : str) :
  Forall (λ c, P c ∧ isspace c = false) cur → Forall P text →
  Forall (λ w, w ≠ [] ∧ Forall (λ c, P c ∧ isspace c = false) w)
    (split_from cur text).
Proof.
  intros Hcur Htext. revert cur Hcur.
  induction Htext as [|c text Hc _ IH]; intros cur Hcur; cbn [split_from].
  - destruct cur; [constructor|]. apply Forall_singleton. by split.
  - destruct (isspace c) eqn:Hsp.
    + destruct cur as [|c0 cur]; [by apply IH|].
      constructor; [done|]. by apply IH.
    + apply IH. apply Forall_app. split; [done|]. by apply Forall_singleton.
Qed.

Lemma process_text_clean (text : str) :
  Forall clean_word (process_text text).
Proof.
  rewrite process_text_unfold. unfold split.
  eapply Forall_impl;
    [apply (split_from_Forall (λ c, lower_char c = c ∧ c ∉ punctuation))|].
  - constructor.
  - apply Forall_forall. intros c [Hp Hc]%list_elem_of_filter.
    split; [|done]. unfold lower in Hc.
    apply list_elem_of_fmap in Hc as (c0 & -> & _). apply lower_char_idem.
  - intros w [Hne Hw]. split; [done|].
    eapply Forall_impl; [exact Hw|]. by intros c [[? ?] ?].
Qed.

(** X20: every word [process_text] returns is non-empty and made of
    characters that [str.lower] leaves alone, that are no punctuation and
    that are no separators. *)
Theorem process_text_words (text : str) :
  Forall clean_word (process_text text).
Proof. apply process_text_clean. Qed.

Lemma split_from_word (cur w rest : str) :
  Forall (λ c, isspace c = false) w →
  split_from cur (w ++ rest) = split_from (cur ++ w) rest.
Proof.
  intros Hw. revert cur. induction Hw as [|c w Hc _ IH]; intros cur.
  - by rewrite app_nil_r.
  - cbn [app split_from]. rewrite Hc, IH. by rewrite <- app_assoc.
Qed.

Lemma split_join (ws : list str) :
  Forall (λ w : str, w ≠ [] ∧ Forall (λ c, isspace c = false) w) ws →
  split (join_space ws) = ws.
Proof.
  unfold split. induction 1 as [|w ws [Hne Hw] Hws IH]; [done|].
  destruct ws as [|w' ws].
  - cbn [join_space]. rewrite <- (app_nil_r w) at 1.
    rewrite split_from_word by done. cbn [split_from app]. by destruct w.
  - change (join_space (w :: w' :: ws))
      with (w ++ " "%char :: join_space (w' :: ws)).
    rewrite split_from_word by done. cbn [app split_from].
    change (isspace " ") with true. cbn iota. rewrite IH. by destruct w.
Qed.

Lemma join_space_Forall (P : ascii → Prop) (ws : list str) :
  P " "%char → Forall (Forall P) ws → Forall P (join_space ws).
Proof.
  intros Hsp. induction 1 as [|w ws Hw Hws IH]; [constructor|].
  destruct ws as [|w' ws]; [done|].
  change (join_space (w :: w' :: ws))
    with (w ++ " "%char :: join_space (w' :: ws)).
  apply Forall_app. split; [done|]. by constructor.
Qed.

Lemma process_text_join (ws : list str) :
  Forall clean_word ws → process_text (join_space ws) = ws.
Proof.
  intros Hws. rewrite process_text_unfold.
  assert (Forall (λ c, lower_char c = c ∧ c ∉ punctuation) (join_space ws))
    as Hall.
  { apply join_space_Forall; [by split; [|compute_done]|].
    eapply Forall_impl; [exact Hws|]. intros w [_ Hw].
    eapply Forall_impl; [exact Hw|]. by intros c (? & ? & ?). }
  assert (lower (join_space ws) = join_space ws) as ->.
  { unfold lower. induction Hall as [|c l [Hc _] _ IH]; [done|].
    cbn [fmap list_fmap]. by rewrite Hc; f_equal. }
  assert (filter (λ c, c ∉ punctuation) (join_space ws) = join_space ws) as ->.
  { induction Hall as [|c l [_ Hc] _ IH]; [done|].
    by rewrite filter_cons_True, IH. }
  apply split_join. eapply Forall_impl; [exact Hws|].
  intros w [Hne Hw]. split; [done|].
  eapply Forall_impl; [exact Hw|]. by intros c (? & ? & ?).
Qed.

(** X21: [process_text] is idempotent through [" ".join]: processing the
    words it returned, joined by spaces, returns the same words. *)
Theorem process_text_idempotent (text : str) :
  process_text (join_space (process_text text)) = process_text text.
Proof. apply process_text_join, process_text_clean. Qed.

Lemma split_from_app_space (cur a b : str) :
  split_from cur (a ++ " "%char :: b) = split_from cur a ++ split_from [] b.
Proof.
  revert cur. induction a as [|c a IH]; intros cur; cbn [app split_from].
  - change (isspace " ") with true. cbn iota. by destruct cur.
  - destruct (isspace c); [|apply IH].
    destruct cur; rewrite IH; done.
Qed.

(** X22: a space between two texts separates their words: the words of
    [a + " " + b] are the words of [a] followed by the words of [b]. *)
Theorem process_text_app (a b : str) :
  process_text (a ++ " "%char :: b) = process_text a ++ process_text b.
Proof.
  rewrite !process_text_unfold. unfold lower, split.
  rewrite fmap_app, filter_app. cbn [fmap list_fmap].
  rewrite (filter_cons_True _ (lower_char " ")) by compute_done.
  change (lower_char " ") with " "%char. apply split_from_app_space.
Qed.

(** ** count_words *)

Lemma counter_get_incr c w w' :
  counter_get (counter_incr c w) w' =
  counter_get c w' + (if decide (w = w') then 1 else 0).
Proof.
  induction c as [|[k v] c IH]; cbn [counter_incr counter_get].
  - by case_decide.
  - destruct (decide (k = w)) as [->|Hkw]; cbn [counter_get].
    + destruct (decide (w = w')); lia.
    + rewrite IH. destruct (decide (k = w')) as [->|]; [|done].
      rewrite decide_False by (intros ->; done). lia.
Qed.

Lemma counter_keys_incr c w :
  (counter_incr c w).*1 = if decide (w ∈ c.*1) then c.*1 else c.*1 ++ [w].
Proof.
  induction c as [|[k v] c IH]; cbn [counter_incr fmap list_fmap fst].
  - rewrite decide_False by apply not_elem_of_nil. done.
  - destruct (decide (k = w)) as [->|Hkw]; cbn [fmap list_fmap fst].
    + rewrite decide_True by left. done.
    + rewrite IH. destruct (decide (w ∈ c.*1)) as [Hin|Hin].
      * rewrite decide_True by (by right). done.
      * rewrite decide_False; [done|].
        rewrite not_elem_of_cons. split; [by intros ->|done].
Qed.

Lemma counter_total_incr c w : counter_total (counter_incr c w) = counter_total c + 1.
Proof.
  unfold counter_total. induction c as [|[k v] c IH]; cbn [counter_incr foldr].
  - simpl. lia.
  - destruct (decide (k = w)); cbn [foldr snd]; lia.
Qed.

(** The loop of [count_words], from any counter. *)
Lemma count_loop (stop : list str) (words : list str) c :
  let c' := foldl (λ word_counts word,
                     if decide (word ∈ stop) then word_counts
                     else counter_incr word_counts word) c words in
  (∀ w, counter_get c' w =
        counter_get c w + (if decide (w ∈ stop) then 0 else occurrences w words)) ∧
  (NoDup c.*1 → NoDup c'.*1) ∧
  (∀ w, w ∈ c'.*1 ↔ w ∈ c.*1 ∨ (w ∈ words ∧ w ∉ stop)) ∧
  counter_total c' =
  counter_total c + Z.of_nat (length (filter (λ w, w ∉ stop) words)).
Proof.
  revert c. induction words as [|x words IH]; intros c; cbv zeta.
  - cbn [foldl]. unfold occurrences. simpl. split_and!.
    + intros w. case_decide; lia.
    + done.
    + intros w. rewrite elem_of_nil. tauto.
    + lia.
  - cbn [foldl]. destruct (decide (x ∈ stop)) as [Hx|Hx].
    + destruct (IH c) as (G & N & K & T). split_and!.
      * intros w. rewrite G. case_decide as Hw; [done|].
        unfold occurrences. rewrite filter_cons_False; [done|].
        by intros ->.
      * done.
      * intros w. rewrite K, elem_of_cons. split; [tauto|].
        intros [?|[[->|?] ?]]; tauto.
      * rewrite T, filter_cons_False by tauto. done.
    + destruct (IH (counter_incr c x)) as (G & N & K & T). split_and!.
      * intros w. rewrite G, counter_get_incr. unfold occurrences.
        rewrite filter_cons. destruct (decide (x = w)) as [->|Hne].
        -- rewrite !decide_False by done. simpl. lia.
        -- case_decide; lia.
      * intros Hnd. apply N. rewrite counter_keys_incr.
        case_decide; [done|]. apply NoDup_app. split; [done|].
        split; [|apply NoDup_singleton].
        by intros w Hw ->%list_elem_of_singleton.
      * intros w. rewrite K, counter_keys_incr, elem_of_cons.
        case_decide as Hin.
        -- split; [tauto|]. intros [?|[[->|?] ?]]; tauto.
        -- rewrite elem_of_app, list_elem_of_singleton.
           split; [intros [[?| ->]|?]; tauto|].
           intros [?|[[->|?] ?]]; tauto.
      * rewrite T, counter_total_incr, filter_cons_True by done. simpl. lia.
Qed.

(** X23: what [count_words] counts. Whatever the words filtered out, the
    counter holds, for every other word, the number of times it is in
    [words], and 0 for a filtered word; its keys are the words of [words]
    that are not filtered, each once. *)
Theorem count_words_counts (stop : list str) (words : list str) :
  let word_counts := count_words_with stop words in
  (∀ w, counter_get word_counts w =
        if decide (w ∈ stop) then 0 else occurrences w words) ∧
  NoDup word_counts.*1 ∧
  (∀ w, w ∈ word_counts.*1 ↔ w ∈ words ∧ w ∉ stop).
Proof.
  destruct (count_loop stop words []) as (G & N & K & _). split_and!.
  - intros w. by rewrite G.
  - apply N. constructor.
  - intros w. rewrite K. cbn [fmap list_fmap]. rewrite elem_of_nil. tauto.
Qed.

(** X24: the counts add up to the number of words that are not filtered
    out. *)
Theorem count_words_total (stop : list str) (words : list str) :
  counter_total (count_words_with stop words) =
  Z.of_nat (length (filter (λ w, w ∉ stop) words)).
Proof.
  destruct (count_loop stop words []) as (_ & _ & _ & T).
  unfold count_words_with. rewrite T. unfold counter_total. simpl. lia.
Qed.

(** ** The most common words *)

Lemma insert_desc_perm x l : insert_desc x l ≡ₚ x :: l.
Proof.
  induction l as [|y l IH]; cbn [insert_desc]; [done|].
  destruct (y.2 <=? x.2); [done|]. rewrite IH. apply Permutation_swap.
Qed.

Lemma sorted_desc_perm l : sorted_desc l ≡ₚ l.
Proof.
  unfold sorted_desc. induction l as [|x l IH]; [done|].
  cbn [foldr]. by rewrite insert_desc_perm, IH.
Qed.

Lemma insert_desc_sorted x l :
  StronglySorted by_count l → StronglySorted by_count (insert_desc x l).
Proof.
  induction 1 as [|y l Hl IH Hy]; cbn [insert_desc].
  - repeat constructor.
  - destruct (Z.leb_spec y.2 x.2) as [Hle|Hlt].
    + constructor; [by constructor|]. constructor; [done|].
      eapply Forall_impl; [exact Hy|]. unfold by_count. intros z Hz. lia.
    + constructor; [done|]. rewrite insert_desc_perm.
      constructor; [unfold by_count; lia|done].
Qed.

Lemma sorted_desc_sorted l : StronglySorted by_count (sorted_desc l).
Proof.
  unfold sorted_desc. induction l as [|x l IH]; [constructor|].
  cbn [foldr]. by apply insert_desc_sorted.
Qed.

Lemma counter_get_elem c k v :
  NoDup c.*1 → (k, v) ∈ c → counter_get c k = v.
Proof.
  induction c as [|[k' v'] c IH]; [by intros _ ?%elem_of_nil|].
  cbn [fmap list_fmap fst counter_get]. intros [Hk Hnd]%NoDup_cons.
  intros [[= -> ->]|Hin]%elem_of_cons.
  - by rewrite decide_True.
  - rewrite decide_False; [by apply IH|]. intros ->. apply Hk.
    by apply (list_elem_of_fmap_2 fst _ (k, v)).
Qed.

(** X25: what the main program lists. At most five items, no word twice,
    counts never increasing; every item is a word of the processed text
    that is not filtered out, with the number of times it occurs; and a
    word that is not listed is filtered out, or the list is full and the
    word occurs no more often than any listed word. *)
Theorem top_words_listed (text : str) :
  let words := process_text text in
  let top := top_words text in
  (length top ≤ 5)%nat ∧ NoDup top.*1 ∧ StronglySorted by_count top ∧
  Forall (λ p, p.1 ∈ words ∧ (p.1 ∉ stoplist) ∧ p.2 = occurrences p.1 words)
    top ∧
  (∀ w, w ∈ words → w ∉ stoplist → w ∉ top.*1 →
        length top = 5%nat ∧ Forall (λ p, occurrences w words ≤ p.2) top).
Proof.
  intros words top. unfold top, top_words, most_common. fold words.
  set (c := count_words words).
  destruct (count_loop stoplist words []) as (G & N & K & _).
  fold (count_words_with stoplist words) in G, N, K.
  fold (count_words words) in G, N, K. fold c in G, N, K.
  specialize (N (NoDup_nil_2)).
  assert (∀ w, w ∈ c.*1 ↔ w ∈ words ∧ w ∉ stoplist) as K'.
  { intros w. rewrite K. cbn [fmap list_fmap]. rewrite elem_of_nil. tauto. }
  assert (∀ k v, (k, v) ∈ c → v = occurrences k words ∧ k ∈ words ∧ k ∉ stoplist)
    as Hitem.
  { intros k v Hin.
    assert (k ∈ c.*1) as [Hk Hs]%K'
      by by apply (list_elem_of_fmap_2 fst _ (k, v)).
    split; [|done]. rewrite <- (counter_get_elem c k v N Hin), G.
    rewrite decide_False by done. simpl. lia. }
  pose proof (sorted_desc_perm c) as Hperm.
  pose proof (sorted_desc_sorted c) as Hsort.
  rewrite <- (take_drop 5 (sorted_desc c)) in Hsort.
  split_and!.
  - rewrite length_take. lia.
  - eapply sublist_NoDup; [|rewrite fmap_take; apply sublist_take].
    by rewrite Hperm.
  - by eapply StronglySorted_app_1_l.
  - apply Forall_forall. intros [k v] Hin.
    assert ((k, v) ∈ c) as Hc.
    { rewrite <- Hperm, <- (take_drop 5 (sorted_desc c)), elem_of_app. auto. }
    destruct (Hitem k v Hc) as (-> & ? & ?). done.
  - intros w Hw Hs Hout.
    assert (w ∈ c.*1) as (p & -> & Hp)%list_elem_of_fmap by by apply K'.
    destruct p as [w v]. cbn [fst] in *.
    destruct (Hitem w v Hp) as (-> & _ & _).
    assert ((w, occurrences w words) ∈ drop 5 (sorted_desc c)) as Hdrop.
    { rewrite <- Hperm, <- (take_drop 5 (sorted_desc c)), elem_of_app in Hp.
      destruct Hp as [Hp|Hp]; [|done]. destruct Hout.
      by apply (list_elem_of_fmap_2 fst _ (w, occurrences w words)). }
    split.
    + apply length_take_le.
      destruct (decide (5 ≤ length (sorted_desc c))%nat) as [|Hshort]; [done|].
      rewrite drop_ge in Hdrop by lia. by apply elem_of_nil in Hdrop.
    + apply Forall_forall. intros p Hptop.
      exact (StronglySorted_app_1_elem_of by_count _ _ _ _ Hsort Hptop Hdrop).
Qed.

Lemma top_words_listed_witness :
  (String.list_ascii_of_string "fun" ∈ process_text sample_text ∧
   (String.list_ascii_of_string "fun" ∉ stoplist) ∧
   (String.list_ascii_of_string "fun" ∉ (top_words sample_text).*1)) ∧
  length (top_words sample_text) = 5%nat ∧
  Forall (λ p, occurrences (String.list_ascii_of_string "fun")
                 (process_text sample_text) ≤ p.2)
    (top_words sample_text).
Proof.
  assert (String.list_ascii_of_string "fun" ∈ process_text sample_text) as H1
    by compute_done.
  assert (String.list_ascii_of_string "fun" ∉ stoplist) as H2 by compute_done.
  assert (String.list_ascii_of_string "fun" ∉ (top_words sample_text).*1)
    as H3 by compute_done.
  split; [done|].
  exact (proj2 (proj2 (proj2 (proj2 (top_words_listed sample_text))))
           (String.list_ascii_of_string "fun") H1 H2 H3).
Defined.
